(** * Dirichlet-Multinomial read-count test: a shallow embedding

    Source: notebooks/dirichlet-multinomial-sequencing-read-counts.ipynb
    (functions [plot_posterior], [kth_largest], [keep_largest_test]).

    Numbers.  The notebook feeds Python lists of integers to numpy, which
    works in float64.  Every float that arises from integers by conversion,
    addition and subtraction is an integer itself, or an infinity or a NaN,
    so the arrays are modelled as [list Z] and the arithmetic as integer
    arithmetic followed by rounding to the nearest float64 ([fl]): exact up
    to 2^53 in magnitude, rounded beyond, [OverflowError] for an integer too
    large to convert.  The quantiles returned by scipy are genuine fractions
    and are modelled as rationals ([Q]), with [NaN] for scipy's
    not-a-number answer.

    scipy.  [scipy.stats.beta] is a third-party library, not code of the
    notebook.  Its quantile function [ppf] is modelled by what it computes:
    the inverse of the Beta cumulative distribution function, here the exact
    CDF for integer shape parameters inverted by bisection down to 2^-53. *)

From Bignums Require Import BigZ.
From Stdlib Require Import ZArith QArith List Lia Bool Permutation Sorted.
Import ListNotations.

Open Scope Z_scope.

(** ** Python results and exceptions *)

(** The exceptions that matter here.  [IndexError], [ValueError] and
    [OverflowError] are the ones numpy and Python raise on the paths of the
    notebook; [InvalidInputError] and [NumericComputationError] are the error
    kinds the specification names.  No statement of the notebook raises
    either of these two. *)
Inductive exn : Type :=
| IndexError
| ValueError
| OverflowError
| InvalidInputError
| NumericComputationError.

Inductive result (A : Type) : Type :=
| Ok (v : A)
| Raise (e : exn).

Arguments Ok {A} v.
Arguments Raise {A} e.

Definition bind {A B : Type} (r : result A) (k : A -> result B) : result B :=
  match r with
  | Ok v => k v
  | Raise e => Raise e
  end.

Notation "x <- r ;; k" := (bind r (fun x => k))
  (at level 61, r at next level, right associativity).
Notation "' ( x , y ) <- r ;; k" := (bind r (fun xy => let '(x, y) := xy in k))
  (at level 61, x name, y name, r at next level, right associativity).

(** ** float64 on integers *)

(** The float64 nearest to the integer [z], ties to the even significand,
    as if the exponent had no upper end: an integer of up to 53 bits is a
    float64; a longer one keeps its 53 leading bits, rounded. *)
Definition fl (z : Z) : Z :=
  let m := Z.abs z in
  let s := Z.log2 m + 1 - 53 in
  if s <=? 0 then z
  else
    let q := Z.shiftr m s in
    let r := m - Z.shiftl q s in
    let half := Z.shiftl 1 (s - 1) in
    let q' := if (half <? r) || ((r =? half) && Z.odd q) then q + 1 else q in
    Z.sgn z * Z.shiftl q' s.

(** A Python or numpy float that came from integers: an integer-valued
    float64, an infinity or a NaN. *)
Inductive pyfloat : Type :=
| Flt (z : Z)
| PosInf
| NegInf
| FloatNaN.

(** The float64 for the exact value [z] of an operation: beyond the largest
    float64 the result is an infinity. *)
Definition to_float (z : Z) : pyfloat :=
  let r := fl z in
  if 2 ^ 1024 <=? r then PosInf
  else if r <=? - 2 ^ 1024 then NegInf
  else Flt r.

(** [x + y] on floats *)
Definition float_add (x y : pyfloat) : pyfloat :=
  match x, y with
  | Flt a, Flt b => to_float (a + b)
  | FloatNaN, _ | _, FloatNaN => FloatNaN
  | PosInf, NegInf | NegInf, PosInf => FloatNaN
  | PosInf, _ | _, PosInf => PosInf
  | NegInf, _ | _, NegInf => NegInf
  end.

(** [x - y] on floats *)
Definition float_sub (x y : pyfloat) : pyfloat :=
  match y with
  | Flt b => float_add x (Flt (- b))
  | PosInf => float_add x NegInf
  | NegInf => float_add x PosInf
  | FloatNaN => FloatNaN
  end.

(** [float(c)] for a Python int [c]: the nearest float64, and
    [OverflowError] when [c] is too large for one. *)
Definition float_of_int (c : Z) : result Z :=
  match to_float c with
  | Flt r => Ok r
  | _ => Raise OverflowError
  end.

(** ** numpy arrays of integer-valued floats *)

(** [np.ones(n)] *)
Definition np_ones (n : nat) : list Z := repeat 1 n.

(** [x + c] for an entry [x] of a float array and a Python int [c] of a
    list: [c] becomes a float, then the floats are added.  An array holds
    finite floats here: for an entry below 2^970 in magnitude, such as the
    1.0 of the notebook's prior, the sum is finite again
    ([add_float_int_finite] below). *)
Definition add_float_int (x c : Z) : result Z :=
  y <- float_of_int c ;; Ok (fl (x + y)).

(** Elementwise [xs + ys] on a float array and a list of one length. *)
Fixpoint add_elementwise (xs ys : list Z) : result (list Z) :=
  match xs, ys with
  | x :: xs', y :: ys' =>
      z <- add_float_int x y ;;
      zs <- add_elementwise xs' ys' ;;
      Ok (z :: zs)
  | _, _ => Ok []
  end.

(** [f] on every entry, stopping at the first exception. *)
Fixpoint map_result {A B : Type} (f : A -> result B) (l : list A)
  : result (list B) :=
  match l with
  | [] => Ok []
  | x :: l' => y <- f x ;; ys <- map_result f l' ;; Ok (y :: ys)
  end.

(** [xs + ys] for a one-dimensional float array [xs] and a Python list of
    ints [ys], with numpy's broadcasting: equal lengths add elementwise, a
    length of one is stretched over the other, and any other pair of lengths
    raises [ValueError] before any entry is added. *)
Definition np_add (xs ys : list Z) : result (list Z) :=
  if Nat.eqb (length xs) (length ys) then add_elementwise xs ys
  else match xs, ys with
       | [x], _ => map_result (add_float_int x) ys
       | _, [y] => map_result (fun x => add_float_int x y) xs
       | _, _ => Raise ValueError
       end.

(** Python's [sum(a)] on a float array: from 0, one float addition per
    entry, left to right. *)
Definition py_sum (a : list Z) : pyfloat :=
  fold_left (fun s x => float_add s (Flt x)) a (Flt 0).

(** The order of the additions of a sum, as a tree. *)
Inductive sum_tree : Type :=
| Leaf (x : Z)
| Plus (l r : sum_tree).

(** The float a tree of additions gives. *)
Fixpoint tree_float (t : sum_tree) : pyfloat :=
  match t with
  | Leaf x => Flt x
  | Plus l r => float_add (tree_float l) (tree_float r)
  end.

(** [t + a[0] + a[1] + ...], left to right. *)
Definition chain (t : sum_tree) (a : list Z) : sum_tree :=
  fold_left (fun t x => Plus t (Leaf x)) a t.

(** [r[k] += block[k]] *)
Fixpoint plus_block (r : list sum_tree) (block : list Z) : list sum_tree :=
  match r, block with
  | t :: r', x :: block' => Plus t (Leaf x) :: plus_block r' block'
  | _, _ => r
  end.

(** The eight running sums of numpy's pairwise summation: while eight
    entries are left, one goes to each. *)
Fixpoint accumulate (fuel : nat) (r : list sum_tree) (rest : list Z)
  : list sum_tree * list Z :=
  match fuel with
  | O => (r, rest)
  | S fuel' =>
      if (length rest <? 8)%nat then (r, rest)
      else accumulate fuel' (plus_block r (firstn 8 rest)) (skipn 8 rest)
  end.

Definition combine8 (r : list sum_tree) : sum_tree :=
  match r with
  | [r0; r1; r2; r3; r4; r5; r6; r7] =>
      Plus (Plus (Plus r0 r1) (Plus r2 r3)) (Plus (Plus r4 r5) (Plus r6 r7))
  | _ => Leaf 0
  end.

(** numpy's pairwise summation of a float64 array: under eight entries a
    plain loop from 0; up to 128 entries eight running sums, added up in
    pairs, then the entries left over; beyond, the two halves (the first a
    multiple of eight long) summed apart. *)
Fixpoint pairwise (fuel : nat) (a : list Z) : sum_tree :=
  let n := length a in
  if (n <? 8)%nat then chain (Leaf 0) a
  else if (n <=? 128)%nat then
    let '(r, tail) := accumulate n (map Leaf (firstn 8 a)) (skipn 8 a) in
    chain (combine8 r) tail
  else
    match fuel with
    | O => Leaf 0
    | S fuel' =>
        let n2 := (n / 2 - (n / 2) mod 8)%nat in
        Plus (pairwise fuel' (firstn n2 a)) (pairwise fuel' (skipn n2 a))
    end.

(** What a tree adds up to when every leaf [x] counts as [f x]: the exact
    sum for the identity, the total of the magnitudes for [Z.abs]. *)
Fixpoint tree_sum (f : Z -> Z) (t : sum_tree) : Z :=
  match t with
  | Leaf x => f x
  | Plus l r => tree_sum f l + tree_sum f r
  end.

(** [a.sum()] of a numpy array.  A float64 array is reduced from the
    identity 0 by pairwise summation; an array of Python objects, which is
    what numpy makes of a list with an int beyond 64 bits, is added up left
    to right from its first entry. *)
Definition np_sum (objects : bool) (a : list Z) : pyfloat :=
  if objects then
    match a with
    | [] => Flt 0
    | x :: a' => tree_float (chain (Leaf x) a')
    end
  else tree_float (Plus (Leaf 0) (pairwise (length a) a)).

(** Whether a list of Python ints becomes an array of objects: some int
    fits neither int64 nor uint64. *)
Definition beyond_64_bits (read_counts : list Z) : bool :=
  existsb (fun c => (c <? - 2 ^ 63) || (2 ^ 64 <=? c)) read_counts.

(** The exact sum, for the statements below. *)
Definition total (a : list Z) : Z := fold_right Z.add 0 a.

(** Elementwise exact sum of two lists of one length. *)
Fixpoint zip_add (xs ys : list Z) : list Z :=
  match xs, ys with
  | x :: xs', y :: ys' => (x + y) :: zip_add xs' ys'
  | _, _ => []
  end.

(** [np.sort(a)]: ascending order. *)
Fixpoint insert (x : Z) (l : list Z) : list Z :=
  match l with
  | [] => [x]
  | y :: l' => if x <=? y then x :: l else y :: insert x l'
  end.

Fixpoint np_sort (a : list Z) : list Z :=
  match a with
  | [] => []
  | x :: a' => insert x (np_sort a')
  end.

(** [a[i]] with Python's negative indices: [i < 0] counts from the end, and
    an index outside [-len(a), len(a))] raises [IndexError]. *)
Definition py_getitem (a : list Z) (i : Z) : result Z :=
  let n := Z.of_nat (length a) in
  let j := if i <? 0 then i + n else i in
  if (j <? 0) || (n <=? j) then Raise IndexError
  else Ok (nth (Z.to_nat j) a 0).

(** ** Quantiles of the Beta distribution

    What follows stands for [scipy.stats.beta]: the CDF, computed exactly,
    and the quantile function as the CDF's inverse on a grid of step 2^-53
    ([ppf1_is_quantile] below says how the answer sits next to the exact
    quantile).  The shapes are integers, as every shape the notebook builds
    is a count plus one or a sum of such. *)

(** A float64 returned by scipy. *)
Inductive float64 : Type :=
| Fin (x : Q)
| NaN.

(** [x > y] on floats: false as soon as one side is NaN. *)
Definition float_gt (x y : float64) : bool :=
  match x, y with
  | Fin p, Fin q => negb (Qle_bool p q)
  | _, _ => false
  end.

(** One row of the binomial tail table to the next.  With [x = m/d], row [n]
    holds [d^n * P (Bin (n, x) >= a)] for [a = 0 .. n]. *)
Fixpoint row_step (m d prev : Z) (r : list Z) : list Z :=
  match r with
  | [] => [m * prev]
  | s :: r' => (m * prev + (d - m) * s) :: row_step m d s r'
  end.

Fixpoint tail_row (m d : Z) (n : nat) : list Z :=
  match n with
  | O => [1]
  | S n' => let r := tail_row m d n' in row_step m d (hd 0 r) r
  end.

(** [binom_tail m d n a = d^n * P (Bin (n, m/d) >= a)] *)
Definition binom_tail (m d : Z) (n a : nat) : Z := nth a (tail_row m d n) 0.

(** The CDF of Beta(a, b) for integer shapes [a, b >= 1]: the regularised
    incomplete beta function [I_x (a, b)], which for integer shapes is the
    binomial tail [P (Bin (a + b - 1, x) >= a)]. *)
Definition beta_cdf (a b : Z) (x : Q) : Q :=
  let n := Z.to_nat (a + b - 1) in
  binom_tail (Qnum x) (QDen x) n (Z.to_nat a) # Z.to_pos (QDen x ^ Z.of_nat n).

(** Bisection on the dyadic grid: the current bracket is [c/p, (c+1)/p]. *)
Fixpoint bisect (F : Q -> Q) (q : Q) (fuel : nat) (c : Z) (p : positive) : Q :=
  match fuel with
  | O => c # p
  | S fuel' =>
      let mid := (2 * c + 1) # (p~0) in
      if Qle_bool q (F mid) then bisect F q fuel' (2 * c) (p~0)
      else bisect F q fuel' (2 * c + 1) (p~0)
  end.

(** The denominator of the grid after [fuel] halvings of a bracket of
    width [1/p]. *)
Fixpoint halved (fuel : nat) (p : positive) : positive :=
  match fuel with
  | O => p
  | S fuel' => halved fuel' (p~0)%positive
  end.

(** Bits of the answer of [ppf]: the mantissa of a float64. *)
Definition ppf_bits : nat := 53.

(** A frozen [scipy.stats.beta(a, b)]. *)
Record rv_frozen : Type := beta { shape_a : Z; shape_b : Z }.

(** [dist.ppf(q)] for a scalar [q]: NaN when a shape is not positive or [q]
    is outside [0, 1]; the ends of the support at [q = 0] and [q = 1]. *)
Definition ppf1 (dist : rv_frozen) (q : Q) : float64 :=
  if (0 <? shape_a dist) && (0 <? shape_b dist) then
    if Qeq_bool q 0 then Fin 0
    else if Qeq_bool q 1 then Fin 1
    else if Qle_bool 0 q && Qle_bool q 1
         then Fin (bisect (beta_cdf (shape_a dist) (shape_b dist)) q ppf_bits 0 1)
         else NaN
  else NaN.

(** [dist.ppf(qs)] for an array of levels. *)
Definition ppf (dist : rv_frozen) (qs : list Q) : list float64 :=
  map (ppf1 dist) qs.

(** [l, u = xs]: unpacking into two names needs exactly two values. *)
Definition unpack2 {A : Type} (xs : list A) : result (A * A) :=
  match xs with
  | [l; u] => Ok (l, u)
  | _ => Raise ValueError
  end.

(** A [scipy.stats.beta(a, b)] as the notebook builds it, from two floats.
    What scipy answers for a shape that is an infinity or a NaN is taken to
    be NaN. *)
Inductive distribution : Type :=
| Shapes (d : rv_frozen)
| NonFiniteShape.

Definition scipy_beta (a b : pyfloat) : distribution :=
  match a, b with
  | Flt x, Flt y => Shapes (beta x y)
  | _, _ => NonFiniteShape
  end.

Definition dist_ppf (d : distribution) (qs : list Q) : list float64 :=
  match d with
  | Shapes d' => ppf d' qs
  | NonFiniteShape => map (fun _ => NaN) qs
  end.

(** One level of [dist_ppf]. *)
Definition dist_ppf1 (d : distribution) (q : Q) : float64 :=
  match d with
  | Shapes d' => ppf1 d' q
  | NonFiniteShape => NaN
  end.

(** ** The notebook *)

(** The marginals that [plot_posterior] draws, one per posterior count:
<<
    prior_counts = np.ones(len(read_counts))
    posterior_counts = prior_counts + read_counts
    for count in posterior_counts:
        marginal = beta(count, posterior_counts.sum() - count).pdf(xs)
>>
    The plotting itself is left out. *)
Definition plot_posterior (read_counts : list Z) : result (list distribution) :=
  let prior_counts := np_ones (length read_counts) in
  posterior_counts <- np_add prior_counts read_counts ;;
  Ok (map (fun count =>
             scipy_beta (Flt count)
               (float_sub (np_sum (beyond_64_bits read_counts) posterior_counts)
                          (Flt count)))
          posterior_counts).

(** [def kth_largest(a, k): return np.sort(a)[-k]] *)
Definition kth_largest (a : list Z) (k : Z) : result Z :=
  py_getitem (np_sort a) (- k).

(** The first two lines of [keep_largest_test] (and of [plot_posterior]). *)
Definition posterior_of (read_counts : list Z) : result (list Z) :=
  let prior_counts := np_ones (length read_counts) in
  np_add prior_counts read_counts.

(** [quantiles = [0.025, 0.975]], a local constant of [keep_largest_test]. *)
Definition quantiles : list Q := [25 # 1000; 975 # 1000]%Q.

(**
<<
    def keep_largest_test(read_counts):
        prior_counts = np.ones(len(read_counts))
        posterior_counts = prior_counts + read_counts
        max1 = kth_largest(posterior_counts, 1)
        max2 = kth_largest(posterior_counts, 2)
        max1dist = beta(max1, sum(posterior_counts) - max1)
        max2dist = beta(max2, sum(posterior_counts) - max2)
        quantiles = [0.025, 0.975]
        max1l, max1u = max1dist.ppf(quantiles)
        max2l, max2u = max2dist.ppf(quantiles)
        if max1l > max2u:
            return True
        else:
            return False
>>
*)
Definition keep_largest_test (read_counts : list Z) : result bool :=
  let prior_counts := np_ones (length read_counts) in
  posterior_counts <- np_add prior_counts read_counts ;;
  max1 <- kth_largest posterior_counts 1 ;;
  max2 <- kth_largest posterior_counts 2 ;;
  let max1dist :=
    scipy_beta (Flt max1) (float_sub (py_sum posterior_counts) (Flt max1)) in
  let max2dist :=
    scipy_beta (Flt max2) (float_sub (py_sum posterior_counts) (Flt max2)) in
  '(max1l, max1u) <- unpack2 (dist_ppf max1dist quantiles) ;;
  '(max2l, max2u) <- unpack2 (dist_ppf max2dist quantiles) ;;
  if float_gt max1l max2u then Ok true else Ok false.

(** ** Where float64 is exact

    Counts that are not negative and whose posterior counts add up to at most
    2^53: every float of the notebook is then the integer it stands for. *)
Definition exact_range (read_counts : list Z) : Prop :=
  Forall (fun c => 0 <= c) read_counts /\
  total (map (Z.add 1) read_counts) <= 2 ^ 53.

(** ** The binomial tail table on machine-word integers

    The same table as [tail_row], on Bignums' [bigZ]; [big_tail_row_spec]
    below shows that it holds the same numbers.  It is only there to evaluate
    the table for shapes in the hundreds. *)

Fixpoint big_row_step (m d prev : bigZ) (r : list bigZ) : list bigZ :=
  match r with
  | [] => [BigZ.mul m prev]
  | s :: r' =>
      BigZ.add (BigZ.mul m prev) (BigZ.mul (BigZ.sub d m) s)
      :: big_row_step m d s r'
  end.

Fixpoint big_tail_row (m d : bigZ) (n : nat) : list bigZ :=
  match n with
  | O => [BigZ.one]
  | S n' => let r := big_tail_row m d n' in big_row_step m d (hd BigZ.zero r) r
  end.

Definition big_binom_tail (m d : bigZ) (n a : nat) : bigZ :=
  nth a (big_tail_row m d n) BigZ.zero.

(** ** The operations as the specification words them

    These follow the specification, not the notebook: a caller-supplied
    prior, caller-supplied quantile levels, validation that fails with
    [InvalidInputError], ties broken towards the lowest index, and exact
    arithmetic.  They are compared with the notebook's functions below. *)
Module Spec.

Definition compute_posterior (counts : list Z) (prior : option (list Z))
  : result (list Z) :=
  let p := match prior with
           | Some p => p
           | None => repeat 1 (length counts)
           end in
  if negb (Nat.eqb (length p) (length counts))
     || Nat.eqb (length counts) 0
     || existsb (fun c => c <? 0) counts
     || existsb (fun a => a <=? 0) p
  then Raise InvalidInputError
  else Ok (zip_add p counts).

Definition marginal_for_category (posterior_concentration : list Z)
  (index : nat) : result rv_frozen :=
  match nth_error posterior_concentration index with
  | Some v => Ok (beta v (total posterior_concentration - v))
  | None => Raise InvalidInputError
  end.

Definition credible_interval (marginal : rv_frozen) (qs : Q * Q)
  : result (float64 * float64) :=
  let '(q_lo, q_hi) := qs in
  if Qle_bool q_lo 0 || Qle_bool 1 q_hi || Qle_bool q_hi q_lo
  then Raise InvalidInputError
  else Ok (ppf1 marginal q_lo, ppf1 marginal q_hi).

(** Index of the largest entry, the lowest one on ties; 0 on []. *)
Fixpoint argmax (l : list Z) : nat :=
  match l with
  | [] => O
  | x :: l' =>
      match l' with
      | [] => O
      | _ => if nth (argmax l') l' 0 <=? x then O else S (argmax l')
      end
  end.

(** Index of the largest entry other than the one at [i]. *)
Definition argmax_but (i : nat) (l : list Z) : nat :=
  let j := argmax (firstn i l ++ skipn (S i) l) in
  if Nat.ltb j i then j else S j.

Definition keep_top_category (counts : list Z) (prior : option (list Z))
  (qs : Q * Q) : result bool :=
  posterior <- compute_posterior counts prior ;;
  if Nat.eqb (length posterior) 1 then Raise InvalidInputError
  else
    let i1 := argmax posterior in
    let i2 := argmax_but i1 posterior in
    max1 <- marginal_for_category posterior i1 ;;
    max2 <- marginal_for_category posterior i2 ;;
    '(max1l, max1u) <- credible_interval max1 qs ;;
    '(max2l, max2u) <- credible_interval max2 qs ;;
    Ok (float_gt max1l max2u).

End Spec.

Arguments bisect : simpl never.
Arguments ppf1 : simpl never.
Arguments beta_cdf : simpl never.
Arguments fl : simpl never.
Arguments to_float : simpl never.

(** * Properties *)

(** ** The binomial tail table *)

Section BinomTail.

Variables m d : Z.

Lemma row_step_nth (r : list Z) : forall prev a,
  nth a (row_step m d prev r) 0
  = m * nth a (prev :: r) 0 + (d - m) * nth a r 0.
Proof.
  induction r as [|s r IH]; intros prev a.
  - destruct a as [|[|a]]; simpl; ring.
  - destruct a as [|a]; [reflexivity|].
    change (nth (S a) (row_step m d prev (s :: r)) 0)
      with (nth a (row_step m d s r) 0).
    rewrite IH. reflexivity.
Qed.

Lemma binom_tail_0_0 : binom_tail m d 0 0 = 1.
Proof. reflexivity. Qed.

Lemma binom_tail_0_S a : binom_tail m d 0 (S a) = 0.
Proof. destruct a; reflexivity. Qed.

Lemma binom_tail_S_0 n : binom_tail m d (S n) 0 = d * binom_tail m d n 0.
Proof.
  unfold binom_tail. simpl tail_row. rewrite row_step_nth.
  destruct (tail_row m d n); simpl; ring.
Qed.

(** Pascal's rule for the tail: the first trial succeeds or fails. *)
Lemma binom_tail_S_S n a :
  binom_tail m d (S n) (S a)
  = m * binom_tail m d n a + (d - m) * binom_tail m d n (S a).
Proof.
  unfold binom_tail. simpl tail_row. rewrite row_step_nth. reflexivity.
Qed.

Lemma binom_tail_n_0 n : binom_tail m d n 0 = d ^ Z.of_nat n.
Proof.
  induction n as [|n IH]; [reflexivity|].
  rewrite binom_tail_S_0, IH, Nat2Z.inj_succ, Z.pow_succ_r by lia.
  reflexivity.
Qed.

Lemma row_step_length (r : list Z) : forall prev,
  length (row_step m d prev r) = S (length r).
Proof.
  induction r as [|s r IH]; intros prev; simpl; [reflexivity|].
  rewrite IH. reflexivity.
Qed.

Lemma tail_row_length n : length (tail_row m d n) = S n.
Proof.
  induction n as [|n IH]; [reflexivity|].
  simpl. rewrite row_step_length, IH. reflexivity.
Qed.

(** More successes than trials: probability zero. *)
Lemma binom_tail_beyond n a : (n < a)%nat -> binom_tail m d n a = 0.
Proof.
  intros H. unfold binom_tail. apply nth_overflow.
  rewrite tail_row_length. lia.
Qed.

(** Every trial a success: [(m/d)^n]. *)
Lemma binom_tail_n_n n : binom_tail m d n n = m ^ Z.of_nat n.
Proof.
  induction n as [|n IH]; [reflexivity|].
  rewrite binom_tail_S_S, IH, binom_tail_beyond by lia.
  rewrite Nat2Z.inj_succ, Z.pow_succ_r by lia. ring.
Qed.

Hypothesis m_range : 0 <= m <= d.

Lemma binom_tail_nonneg n : forall a, 0 <= binom_tail m d n a.
Proof.
  induction n as [|n IH]; intros [|a].
  - rewrite binom_tail_0_0. lia.
  - rewrite binom_tail_0_S. lia.
  - rewrite binom_tail_n_0. apply Z.pow_nonneg. lia.
  - rewrite binom_tail_S_S.
    pose proof (IH a). pose proof (IH (S a)). nia.
Qed.

Lemma binom_tail_le_pow n : forall a, binom_tail m d n a <= d ^ Z.of_nat n.
Proof.
  induction n as [|n IH]; intros [|a].
  - rewrite binom_tail_0_0. simpl. lia.
  - rewrite binom_tail_0_S. simpl. lia.
  - rewrite binom_tail_n_0. lia.
  - rewrite binom_tail_S_S, Nat2Z.inj_succ, Z.pow_succ_r by lia.
    pose proof (IH a). pose proof (IH (S a)). nia.
Qed.

(** Asking for one more success cannot be more likely. *)
Lemma binom_tail_antitone n : forall a,
  binom_tail m d n (S a) <= binom_tail m d n a.
Proof.
  induction n as [|n IH]; intros a.
  - rewrite binom_tail_0_S. apply binom_tail_nonneg.
  - destruct a as [|a].
    + rewrite binom_tail_S_S, binom_tail_S_0.
      pose proof (binom_tail_le_pow n 1) as H1.
      rewrite (binom_tail_n_0 n).
      pose proof (binom_tail_nonneg n 1). nia.
    + rewrite !binom_tail_S_S.
      pose proof (IH a). pose proof (IH (S a)). nia.
Qed.

End BinomTail.

(** The tail grows with the success probability: [m/d <= m'/d'] gives
    [binom_tail m d n a / d^n <= binom_tail m' d' n a / d'^n]. *)
Lemma binom_tail_mono (m d m' d' : Z) :
  0 <= m <= d -> 0 <= m' <= d' -> m * d' <= m' * d ->
  forall n a,
    binom_tail m d n a * d' ^ Z.of_nat n <= binom_tail m' d' n a * d ^ Z.of_nat n.
Proof.
  intros Hm Hm' Hle n.
  induction n as [|n IH]; intros [|a].
  - rewrite !binom_tail_0_0. lia.
  - rewrite !binom_tail_0_S. lia.
  - rewrite !binom_tail_n_0. lia.
  - rewrite !binom_tail_S_S, !Nat2Z.inj_succ, !Z.pow_succ_r by lia.
    set (D := d ^ Z.of_nat n) in *. set (D' := d' ^ Z.of_nat n) in *.
    pose proof (IH a) as I1. pose proof (IH (S a)) as I2.
    pose proof (binom_tail_antitone m d Hm n a) as A1.
    pose proof (binom_tail_nonneg m d Hm n (S a)) as N1.
    assert (HD' : 0 <= D') by (apply Z.pow_nonneg; lia).
    assert (HD : 0 <= D) by (apply Z.pow_nonneg; lia).
    set (P' := binom_tail m d n a) in *. set (P := binom_tail m d n (S a)) in *.
    set (R' := binom_tail m' d' n a) in *. set (R := binom_tail m' d' n (S a)) in *.
    (* (m P' + (d-m) P) d' D'  <=  d (m' P' + (d'-m') P) D'  <=  (m' R' + (d'-m') R) d D *)
    apply Z.le_trans with (d * (m' * (P' * D') + (d' - m') * (P * D'))).
    + assert (0 <= (P' - P) * D') by nia.
      assert (m * d' * ((P' - P) * D') <= m' * d * ((P' - P) * D')) by
        (apply Z.mul_le_mono_nonneg_r; lia).
      nia.
    + assert (m' * (P' * D') <= m' * (R' * D)) by (apply Z.mul_le_mono_nonneg_l; lia).
      assert ((d' - m') * (P * D') <= (d' - m') * (R * D)) by
        (apply Z.mul_le_mono_nonneg_l; lia).
      assert (0 <= d) by lia.
      nia.
Qed.

(** ** The Beta CDF *)

Lemma QDen_pow_pos (x : Q) (n : nat) : 0 < QDen x ^ Z.of_nat n.
Proof. apply Z.pow_pos_nonneg; lia. Qed.

Lemma Q_unit_range (x : Q) : (0 <= x)%Q -> (x <= 1)%Q -> 0 <= Qnum x <= QDen x.
Proof. unfold Qle. simpl. lia. Qed.

(** The CDF is a probability... *)
Lemma beta_cdf_range (a b : Z) (x : Q) :
  (0 <= x)%Q -> (x <= 1)%Q -> (0 <= beta_cdf a b x)%Q /\ (beta_cdf a b x <= 1)%Q.
Proof.
  intros H0 H1. pose proof (Q_unit_range x H0 H1) as Hx.
  unfold beta_cdf, Qle. simpl.
  rewrite Z2Pos.id by apply QDen_pow_pos.
  pose proof (binom_tail_nonneg _ _ Hx (Z.to_nat (a + b - 1)) (Z.to_nat a)).
  pose proof (binom_tail_le_pow _ _ Hx (Z.to_nat (a + b - 1)) (Z.to_nat a)).
  lia.
Qed.

(** ... and does not decrease. *)
Lemma beta_cdf_mono (a b : Z) (x y : Q) :
  (0 <= x)%Q -> (x <= y)%Q -> (y <= 1)%Q -> (beta_cdf a b x <= beta_cdf a b y)%Q.
Proof.
  intros H0 Hxy H1.
  assert (Hx : 0 <= Qnum x <= QDen x)
    by (apply Q_unit_range; [assumption | eapply Qle_trans; eassumption]).
  assert (Hy : 0 <= Qnum y <= QDen y)
    by (apply Q_unit_range; [eapply Qle_trans; eassumption | assumption]).
  unfold beta_cdf, Qle. simpl.
  rewrite !Z2Pos.id by apply QDen_pow_pos.
  apply binom_tail_mono; assumption.
Qed.

(** Beta(1, 1) is the uniform distribution. *)
Lemma beta_cdf_uniform (x : Q) : (beta_cdf 1 1 x == x)%Q.
Proof.
  unfold beta_cdf, Qeq.
  change (Z.to_nat (1 + 1 - 1)) with 1%nat. change (Z.to_nat 1) with 1%nat.
  cbn [Qnum Qden].
  rewrite binom_tail_S_S, binom_tail_0_0, binom_tail_0_S.
  rewrite Z2Pos.id by (apply Z.pow_pos_nonneg; lia).
  change (Z.of_nat 1) with 1. rewrite Z.pow_1_r. ring.
Qed.

(** Beta(3, 4) at one half: 42 of the 64 outcomes of six fair coins show
    three heads or more. *)
Example beta_cdf_3_4_half : (beta_cdf 3 4 (1 # 2) == 21 # 32)%Q.
Proof. reflexivity. Qed.

(** Beta(a, 1) has the CDF [x^a]. *)
Lemma beta_cdf_power (a : Z) (x : Q) :
  0 < a -> (beta_cdf a 1 x == Qnum x ^ a # Z.to_pos (QDen x ^ a))%Q.
Proof.
  intros Ha. unfold beta_cdf.
  replace (a + 1 - 1) with a by lia.
  rewrite binom_tail_n_n, Z2Nat.id by lia. reflexivity.
Qed.

(** ** Bisection *)

(** Inequalities between explicit fractions, as integer inequalities. *)
Ltac q_as_z :=
  unfold Qle, Qlt, Qeq in *; cbn [Qnum Qden] in *.

Section Bisect.

Variable F : Q -> Q.

(** The answer stays in the bracket it started from. *)
Lemma bisect_bracket (q : Q) (fuel : nat) : forall c p,
  (c # p <= bisect F q fuel c p)%Q /\ (bisect F q fuel c p <= (c + 1) # p)%Q.
Proof.
  induction fuel as [|fuel IH]; intros c p.
  - unfold bisect. q_as_z. lia.
  - unfold bisect; fold bisect.
    destruct (Qle_bool q (F ((2 * c + 1) # (p~0)%positive))).
    + destruct (IH (2 * c) (p~0)%positive) as [L U]. split.
      * eapply Qle_trans; [|exact L]. q_as_z. lia.
      * eapply Qle_trans; [exact U|]. q_as_z. lia.
    + destruct (IH (2 * c + 1) (p~0)%positive) as [L U]. split.
      * eapply Qle_trans; [|exact L]. q_as_z. lia.
      * eapply Qle_trans; [exact U|]. q_as_z. lia.
Qed.

(** A higher level never gets a lower answer, whatever [F] is: once the
    two searches part, the lower level went left and the higher right. *)
Lemma bisect_mono_level (q q' : Q) (fuel : nat) : (q <= q')%Q ->
  forall c p, (bisect F q fuel c p <= bisect F q' fuel c p)%Q.
Proof.
  intros Hq. induction fuel as [|fuel IH]; intros c p.
  - apply Qle_refl.
  - unfold bisect; fold bisect.
    destruct (Qle_bool q (F ((2 * c + 1) # (p~0)%positive))) eqn:E;
      destruct (Qle_bool q' (F ((2 * c + 1) # (p~0)%positive))) eqn:E'.
    + apply IH.
    + destruct (bisect_bracket q fuel (2 * c) (p~0)%positive) as [_ U].
      destruct (bisect_bracket q' fuel (2 * c + 1) (p~0)%positive) as [L _].
      eapply Qle_trans; [exact U | exact L].
    + apply Qle_bool_iff in E'.
      assert (Qle_bool q (F ((2 * c + 1) # (p~0)%positive)) = true) as E2
        by (apply Qle_bool_iff; eapply Qle_trans; eassumption).
      congruence.
    + apply IH.
Qed.

Hypothesis F_mono :
  forall x y, (0 <= x)%Q -> (x <= y)%Q -> (y <= 1)%Q -> (F x <= F y)%Q.

(** If [F] has reached level [q] at [t], the answer is at most [t]. *)
Lemma bisect_le_point (q t : Q) (fuel : nat) :
  (0 <= t)%Q -> (t <= 1)%Q -> (q <= F t)%Q ->
  forall c p, 0 <= c -> c + 1 <= Zpos p ->
    c = 0 \/ (F (c # p) < q)%Q ->
    (bisect F q fuel c p <= t)%Q.
Proof.
  intros Ht0 Ht1 Hq. induction fuel as [|fuel IH]; intros c p Hc Hp HL.
  - unfold bisect. destruct HL as [-> | HL]; [q_as_z; nia|].
    destruct (Qlt_le_dec t (c # p)) as [Hlt | Hle]; [|exact Hle].
    exfalso. apply (Qlt_irrefl q).
    eapply Qle_lt_trans; [exact Hq|].
    eapply Qle_lt_trans; [|exact HL].
    apply F_mono; [assumption | apply Qlt_le_weak; assumption |].
    q_as_z. lia.
  - unfold bisect; fold bisect.
    destruct (Qle_bool q (F ((2 * c + 1) # (p~0)%positive))) eqn:E.
    + apply IH; [lia | lia |].
      destruct HL as [-> | HL]; [left; reflexivity | right].
      eapply Qle_lt_trans; [|exact HL].
      apply F_mono; q_as_z; lia.
    + apply IH; [lia | lia |].
      right. apply Qnot_le_lt. intros Hle.
      apply Qle_bool_iff in Hle. congruence.
Qed.

(** If [F] is still under level [q] at [t], the answer is within one grid
    step of [t] or above it. *)
Lemma point_lt_bisect (q t : Q) (fuel : nat) :
  (0 <= t)%Q -> (t < 1)%Q -> (F t < q)%Q ->
  forall c p, 0 <= c -> c + 1 <= Zpos p ->
    c + 1 = Zpos p \/ (q <= F ((c + 1) # p))%Q ->
    (t < bisect F q fuel c p + (1 # halved fuel p))%Q.
Proof.
  intros Ht0 Ht1 Hq. induction fuel as [|fuel IH]; intros c p Hc Hp HU.
  - unfold bisect, halved.
    assert (Hhi : (c # p) + (1 # p) == (c + 1) # p)
      by (unfold Qeq, Qplus; cbn [Qnum Qden]; rewrite Pos2Z.inj_mul; ring).
    rewrite Hhi.
    destruct HU as [HU | HU]; [q_as_z; rewrite HU; nia|].
    destruct (Qlt_le_dec t ((c + 1) # p)) as [Hlt | Hle]; [exact Hlt|].
    exfalso. apply (Qlt_irrefl q).
    eapply Qle_lt_trans; [exact HU|].
    eapply Qle_lt_trans; [|exact Hq].
    apply F_mono; [q_as_z; lia | assumption | apply Qlt_le_weak; assumption].
  - unfold bisect; fold bisect. cbn [halved].
    destruct (Qle_bool q (F ((2 * c + 1) # (p~0)%positive))) eqn:E.
    + apply IH; [lia | lia |].
      right. apply Qle_bool_iff. exact E.
    + apply IH; [lia | lia |].
      destruct HU as [HU | HU]; [left; lia | right].
      eapply Qle_trans; [exact HU|].
      apply F_mono; q_as_z; lia.
Qed.

End Bisect.

Lemma halved_spec (fuel : nat) : forall p,
  Zpos (halved fuel p) = Zpos p * 2 ^ Z.of_nat fuel.
Proof.
  induction fuel as [|fuel IH]; intros p.
  - simpl. lia.
  - cbn [halved]. rewrite IH, Pos2Z.inj_xO, Nat2Z.inj_succ, Z.pow_succ_r by lia.
    ring.
Qed.

(** ** The quantile function *)

Lemma Qeq_bool_false_lt (x y : Q) : (x < y)%Q -> Qeq_bool x y = false /\ Qeq_bool y x = false.
Proof.
  intros H. split.
  - destruct (Qeq_bool x y) eqn:E; [|reflexivity].
    apply Qeq_bool_iff in E. rewrite E in H. exfalso. exact (Qlt_irrefl _ H).
  - destruct (Qeq_bool y x) eqn:E; [|reflexivity].
    apply Qeq_bool_iff in E. rewrite E in H. exfalso. exact (Qlt_irrefl _ H).
Qed.

(** Valid shapes and a level strictly inside (0, 1): the bisection runs. *)
Lemma ppf1_interior (a b : Z) (q : Q) :
  0 < a -> 0 < b -> (0 < q)%Q -> (q < 1)%Q ->
  ppf1 (beta a b) q = Fin (bisect (beta_cdf a b) q ppf_bits 0 1).
Proof.
  intros Ha Hb H0 H1. unfold ppf1. cbn [shape_a shape_b].
  apply Z.ltb_lt in Ha, Hb. rewrite Ha, Hb. cbn [andb].
  destruct (Qeq_bool_false_lt _ _ H0) as [_ ->].
  destruct (Qeq_bool_false_lt _ _ H1) as [-> _].
  assert (Qle_bool 0 q = true) as -> by (apply Qle_bool_iff, Qlt_le_weak, H0).
  assert (Qle_bool q 1 = true) as -> by (apply Qle_bool_iff, Qlt_le_weak, H1).
  reflexivity.
Qed.

(** What the answer is, for valid shapes and a level inside (0, 1): the
    point where the CDF reaches the level, rounded down to the grid of step
    2^-53.  It is at most every point where the CDF has reached the level,
    and less than a grid step under every point where it has not. *)
Lemma ppf1_is_quantile (a b : Z) (q : Q) :
  0 < a -> 0 < b -> (0 < q)%Q -> (q < 1)%Q ->
  exists x,
    ppf1 (beta a b) q = Fin x /\
    (forall t, (0 <= t)%Q -> (t <= 1)%Q -> (q <= beta_cdf a b t)%Q -> (x <= t)%Q) /\
    (forall t, (0 <= t)%Q -> (t < 1)%Q -> (beta_cdf a b t < q)%Q ->
               (t < x + (1 # halved ppf_bits 1))%Q).
Proof.
  intros Ha Hb H0 H1. eexists. split; [apply ppf1_interior; assumption|]. split.
  - intros t T0 T1 Hq.
    apply (bisect_le_point _ (beta_cdf_mono a b) q t ppf_bits T0 T1 Hq 0 1);
      [lia | lia | left; reflexivity].
  - intros t T0 T1 Hq.
    apply (point_lt_bisect _ (beta_cdf_mono a b) q t ppf_bits T0 T1 Hq 0 1);
      [lia | lia | left; reflexivity].
Qed.

Lemma ppf1_invalid (a b : Z) (q : Q) : a <= 0 \/ b <= 0 -> ppf1 (beta a b) q = NaN.
Proof.
  intros H. unfold ppf1. cbn [shape_a shape_b].
  destruct (0 <? a) eqn:Ea; [|reflexivity].
  destruct (0 <? b) eqn:Eb; [|reflexivity].
  apply Z.ltb_lt in Ea, Eb. lia.
Qed.

(** Whatever [ppf1] answers, a number it answers is a probability. *)
Lemma ppf1_range (dist : rv_frozen) (q x : Q) :
  ppf1 dist q = Fin x -> (0 <= x)%Q /\ (x <= 1)%Q.
Proof.
  unfold ppf1. intros H.
  destruct (_ && _); [|discriminate].
  destruct (Qeq_bool q 0); [injection H as <-; split; q_as_z; lia|].
  destruct (Qeq_bool q 1); [injection H as <-; split; q_as_z; lia|].
  destruct (_ && _); [|discriminate].
  injection H as <-.
  destruct (bisect_bracket (beta_cdf (shape_a dist) (shape_b dist)) q ppf_bits 0 1)
    as [L U].
  split; [eapply Qle_trans; [|exact L] | eapply Qle_trans; [exact U|]];
    q_as_z; lia.
Qed.

(** The three ways [ppf1] answers a number. *)
Lemma ppf1_cases (dist : rv_frozen) (q x : Q) :
  ppf1 dist q = Fin x ->
  (q == 0 /\ x = 0)%Q
  \/ (~ q == 0 /\ q == 1 /\ x = 1)%Q
  \/ (~ q == 0 /\ ~ q == 1 /\ 0 <= q /\ q <= 1)%Q
     /\ x = bisect (beta_cdf (shape_a dist) (shape_b dist)) q ppf_bits 0 1.
Proof.
  unfold ppf1. intros H.
  destruct (_ && _); [|discriminate].
  destruct (Qeq_bool q 0) eqn:E0.
  { left. apply Qeq_bool_iff in E0. injection H as <-. auto. }
  assert (N0 : ~ (q == 0)%Q)
    by (intros X; apply Qeq_bool_iff in X; congruence).
  destruct (Qeq_bool q 1) eqn:E1.
  { right. left. apply Qeq_bool_iff in E1. injection H as <-. auto. }
  assert (N1 : ~ (q == 1)%Q)
    by (intros X; apply Qeq_bool_iff in X; congruence).
  destruct (Qle_bool 0 q && Qle_bool q 1) eqn:R; [|discriminate].
  apply andb_true_iff in R as [R0 R1]. apply Qle_bool_iff in R0, R1.
  right. right. injection H as <-. auto.
Qed.

(** Quantiles are ordered like their levels. *)
Lemma ppf1_mono_level (dist : rv_frozen) (q q' x y : Q) :
  (q <= q')%Q -> ppf1 dist q = Fin x -> ppf1 dist q' = Fin y -> (x <= y)%Q.
Proof.
  intros Hq Hx Hy.
  pose proof (ppf1_range _ _ _ Hx) as [_ Hx1].
  pose proof (ppf1_range _ _ _ Hy) as [Hy0 _].
  destruct (ppf1_cases _ _ _ Hx) as [[E ->] | [(N0 & E & ->) | [(N0 & N1 & L0 & L1) ->]]];
    [exact Hy0 | |];
    destruct (ppf1_cases _ _ _ Hy)
      as [[E' ->] | [(N0' & E' & ->) | [(N0' & N1' & L0' & L1') ->]]].
  - rewrite E, E' in Hq. q_as_z. lia.
  - apply Qle_refl.
  - exfalso. apply N1'. apply Qle_antisym; [assumption|]. rewrite <- E. exact Hq.
  - exfalso. apply N0. apply Qle_antisym; [|assumption]. rewrite <- E'. exact Hq.
  - exact Hx1.
  - apply bisect_mono_level. exact Hq.
Qed.


Lemma float_gt_true_iff (x y : Q) : float_gt (Fin x) (Fin y) = true <-> (y < x)%Q.
Proof.
  cbn [float_gt]. rewrite negb_true_iff. split.
  - intros B. apply Qnot_le_lt. intros X. apply Qle_bool_iff in X. congruence.
  - intros X. destruct (Qle_bool x y) eqn:B; [|reflexivity].
    apply Qle_bool_iff in B. exfalso. exact (Qlt_not_le _ _ X B).
Qed.

Lemma float_gt_false_iff (x y : Q) : float_gt (Fin x) (Fin y) = false <-> ~ (y < x)%Q.
Proof.
  rewrite <- float_gt_true_iff. destruct (float_gt _ _); split; congruence.
Qed.

Lemma Ok_inj {A} (x y : A) : Ok x = Ok y <-> x = y.
Proof. split; congruence. Qed.

(** ** float64 on integers *)

(** Up to 2^53 in magnitude every integer is a float64. *)
Lemma fl_exact (z : Z) : Z.abs z <= 2 ^ 53 -> fl z = z.
Proof.
  intros H. unfold fl.
  destruct (Z.eq_dec (Z.abs z) (2 ^ 53)) as [E | NE].
  - destruct (Z.abs_spec z) as [[_ A] | [_ A]]; rewrite A in E.
    + subst z. reflexivity.
    + replace z with (- 2 ^ 53) by lia. reflexivity.
  - destruct (Z.eq_dec z 0) as [-> | Hz]; [reflexivity|].
    assert (L : Z.log2 (Z.abs z) < 53) by (apply Z.log2_lt_pow2; lia).
    destruct (Z.leb_spec (Z.log2 (Z.abs z) + 1 - 53) 0); [reflexivity | lia].
Qed.

Lemma to_float_exact (z : Z) : Z.abs z <= 2 ^ 53 -> to_float z = Flt z.
Proof.
  intros H. unfold to_float. rewrite (fl_exact z H).
  assert (P : 2 ^ 53 < 2 ^ 1024) by (apply Z.pow_lt_mono_r; lia).
  destruct (Z.leb_spec (2 ^ 1024) z); [lia|].
  destruct (Z.leb_spec z (- 2 ^ 1024)); [lia | reflexivity].
Qed.

Lemma float_add_exact (x y : Z) :
  Z.abs (x + y) <= 2 ^ 53 -> float_add (Flt x) (Flt y) = Flt (x + y).
Proof. apply to_float_exact. Qed.

Lemma float_sub_exact (x y : Z) :
  Z.abs (x - y) <= 2 ^ 53 -> float_sub (Flt x) (Flt y) = Flt (x - y).
Proof.
  intros H. unfold float_sub. rewrite float_add_exact by (rewrite Z.add_opp_r; exact H).
  rewrite Z.add_opp_r. reflexivity.
Qed.

Lemma float_of_int_exact (c : Z) : Z.abs c <= 2 ^ 53 -> float_of_int c = Ok c.
Proof. intros H. unfold float_of_int. rewrite to_float_exact by exact H. reflexivity. Qed.

Lemma add_float_int_exact (x c : Z) :
  Z.abs c <= 2 ^ 53 -> Z.abs (x + c) <= 2 ^ 53 -> add_float_int x c = Ok (x + c).
Proof.
  intros Hc Hs. unfold add_float_int. rewrite float_of_int_exact by exact Hc.
  cbn [bind]. rewrite fl_exact by exact Hs. reflexivity.
Qed.




Lemma add_elementwise_length : forall xs ys zs,
  length xs = length ys -> add_elementwise xs ys = Ok zs -> length zs = length ys.
Proof.
  induction xs as [|x xs IH]; intros [|y ys] zs L; cbn [add_elementwise];
    try discriminate L.
  - intros H. injection H as <-. reflexivity.
  - destruct (add_float_int x y); cbn [bind]; [|discriminate].
    destruct (add_elementwise xs ys) eqn:E; cbn [bind]; [|discriminate].
    intros H. injection H as <-. cbn [length]. f_equal.
    apply IH; [simpl in L; lia | exact E].
Qed.

(** Beyond 2^53 a sum is rounded, ties to the even significand, and the
    order of the additions shows. *)
Example fl_beyond_2_53 :
  fl (2 ^ 53 + 1) = 2 ^ 53 /\ fl (2 ^ 53 + 3) = 2 ^ 53 + 4 /\
  fl (- (2 ^ 53 + 1)) = - 2 ^ 53.
Proof. repeat split; reflexivity. Qed.

Example py_sum_depends_on_order :
  py_sum [2 ^ 53; 1; 1] = Flt (2 ^ 53) /\
  py_sum [1; 1; 2 ^ 53] = Flt (2 ^ 53 + 2).
Proof. split; reflexivity. Qed.

(** ** Exact sums *)

Lemma total_app (l1 l2 : list Z) : total (l1 ++ l2) = total l1 + total l2.
Proof. induction l1 as [|x l1 IH]; unfold total in *; simpl; lia. Qed.

Lemma total_perm (a b : list Z) : Permutation a b -> total a = total b.
Proof. induction 1; unfold total in *; simpl in *; lia. Qed.

Lemma total_nonneg (l : list Z) : Forall (fun x => 0 <= x) l -> 0 <= total l.
Proof. induction 1; unfold total in *; simpl; lia. Qed.

Lemma total_abs_nonneg (l : list Z) : 0 <= total (map Z.abs l).
Proof. apply total_nonneg, Forall_map, Forall_forall. intros x _. apply Z.abs_nonneg. Qed.

Lemma abs_total_le (l : list Z) : Z.abs (total l) <= total (map Z.abs l).
Proof.
  induction l as [|x l IH]; [reflexivity|].
  change (total (x :: l)) with (x + total l).
  change (total (map Z.abs (x :: l))) with (Z.abs x + total (map Z.abs l)).
  lia.
Qed.

Lemma total_abs_of_nonneg (l : list Z) :
  Forall (fun x => 0 <= x) l -> total (map Z.abs l) = total l.
Proof.
  induction 1 as [|x l Hx Hl IH]; [reflexivity|].
  change (total (map Z.abs (x :: l))) with (Z.abs x + total (map Z.abs l)).
  change (total (x :: l)) with (x + total l). lia.
Qed.

(** One entry against the total of the magnitudes. *)
Lemma abs_le_total_abs (l : list Z) (x : Z) :
  In x l -> Z.abs x <= total (map Z.abs l).
Proof.
  intros H. destruct (in_split _ _ H) as (l1 & l2 & ->).
  rewrite map_app, total_app.
  change (total (map Z.abs (x :: l2))) with (Z.abs x + total (map Z.abs l2)).
  pose proof (total_abs_nonneg l1). pose proof (total_abs_nonneg l2). lia.
Qed.

(** The total less one entry against the total of the magnitudes. *)
Lemma abs_rest_le_total_abs (l : list Z) (x : Z) :
  In x l -> Z.abs (total l - x) <= total (map Z.abs l).
Proof.
  intros H. destruct (in_split _ _ H) as (l1 & l2 & ->).
  rewrite map_app, !total_app.
  change (total (x :: l2)) with (x + total l2).
  change (total (map Z.abs (x :: l2))) with (Z.abs x + total (map Z.abs l2)).
  pose proof (abs_total_le l1). pose proof (abs_total_le l2).
  pose proof (Z.abs_nonneg x). lia.
Qed.

(** Python's [sum] is the exact sum as long as the magnitudes add up to at
    most 2^53. *)
Lemma py_sum_from (a : list Z) : forall s,
  Z.abs s + total (map Z.abs a) <= 2 ^ 53 ->
  fold_left (fun s x => float_add s (Flt x)) a (Flt s) = Flt (s + total a).
Proof.
  induction a as [|x a IH]; intros s H.
  - simpl. f_equal. unfold total. simpl. lia.
  - change (total (map Z.abs (x :: a))) with (Z.abs x + total (map Z.abs a)) in H.
    change (total (x :: a)) with (x + total a).
    pose proof (total_abs_nonneg a).
    cbn [fold_left]. rewrite float_add_exact by lia.
    rewrite IH by lia. f_equal. lia.
Qed.

Lemma py_sum_exact (a : list Z) :
  total (map Z.abs a) <= 2 ^ 53 -> py_sum a = Flt (total a).
Proof. intros H. unfold py_sum. rewrite py_sum_from by (simpl; lia). reflexivity. Qed.

(** ** numpy's sum *)

Lemma tree_sum_abs (t : sum_tree) :
  Z.abs (tree_sum (fun x => x) t) <= tree_sum Z.abs t.
Proof. induction t; simpl; lia. Qed.

(** A tree of additions is exact as long as the magnitudes of its leaves
    add up to at most 2^53, whatever its shape. *)
Lemma tree_float_exact (t : sum_tree) :
  tree_sum Z.abs t <= 2 ^ 53 -> tree_float t = Flt (tree_sum (fun x => x) t).
Proof.
  induction t as [x | l IHl r IHr]; intros H; [reflexivity|].
  cbn [tree_sum] in H. cbn [tree_float tree_sum].
  pose proof (tree_sum_abs l). pose proof (tree_sum_abs r).
  assert (0 <= tree_sum Z.abs l) by lia. assert (0 <= tree_sum Z.abs r) by lia.
  rewrite IHl, IHr by lia. apply float_add_exact. lia.
Qed.

Section TreeSums.

Variable f : Z -> Z.
Hypothesis f_0 : f 0 = 0.

Lemma chain_sum (a : list Z) : forall t,
  tree_sum f (chain t a) = tree_sum f t + total (map f a).
Proof.
  unfold chain. induction a as [|x a IH]; intros t.
  - unfold total. simpl. lia.
  - cbn [fold_left]. rewrite IH. cbn [tree_sum].
    change (total (map f (x :: a))) with (f x + total (map f a)). lia.
Qed.

Lemma plus_block_sum : forall r block,
  length r = length block ->
  length (plus_block r block) = length r /\
  total (map (tree_sum f) (plus_block r block))
  = total (map (tree_sum f) r) + total (map f block).
Proof.
  induction r as [|t r IH]; intros [|x block] L; try discriminate L.
  - split; reflexivity.
  - destruct (IH block) as [L' E]; [simpl in L; lia|].
    cbn [plus_block length map]. split; [lia|].
    change (total (tree_sum f (Plus t (Leaf x)) :: map (tree_sum f) (plus_block r block)))
      with (tree_sum f (Plus t (Leaf x)) + total (map (tree_sum f) (plus_block r block))).
    change (total (tree_sum f t :: map (tree_sum f) r))
      with (tree_sum f t + total (map (tree_sum f) r)).
    change (total (f x :: map f block)) with (f x + total (map f block)).
    rewrite E. cbn [tree_sum]. lia.
Qed.

Lemma accumulate_sum (fuel : nat) : forall r rest,
  length r = 8%nat ->
  length (fst (accumulate fuel r rest)) = 8%nat /\
  total (map (tree_sum f) (fst (accumulate fuel r rest)))
  + total (map f (snd (accumulate fuel r rest)))
  = total (map (tree_sum f) r) + total (map f rest).
Proof.
  induction fuel as [|fuel IH]; intros r rest L; [split; [exact L | reflexivity]|].
  cbn [accumulate].
  destruct (Nat.ltb_spec (length rest) 8) as [Hs | Hl]; [split; [exact L | reflexivity]|].
  assert (Lb : length (firstn 8 rest) = 8%nat) by (rewrite length_firstn; lia).
  destruct (plus_block_sum r (firstn 8 rest)) as [L' E]; [lia|].
  destruct (IH (plus_block r (firstn 8 rest)) (skipn 8 rest)) as [L'' E'']; [lia|].
  split; [exact L''|]. rewrite E'', E.
  rewrite <- (firstn_skipn 8 rest) at 3. rewrite map_app, total_app. lia.
Qed.

Lemma combine8_sum (r : list sum_tree) :
  length r = 8%nat -> tree_sum f (combine8 r) = total (map (tree_sum f) r).
Proof.
  intros L.
  destruct r as [|r0 [|r1 [|r2 [|r3 [|r4 [|r5 [|r6 [|r7 [|]]]]]]]]];
    try discriminate L.
  unfold total. simpl. lia.
Qed.

Lemma pairwise_unfold (fuel : nat) (a : list Z) :
  pairwise fuel a
  = if (length a <? 8)%nat then chain (Leaf 0) a
    else if (length a <=? 128)%nat then
      chain (combine8 (fst (accumulate (length a) (map Leaf (firstn 8 a)) (skipn 8 a))))
            (snd (accumulate (length a) (map Leaf (firstn 8 a)) (skipn 8 a)))
    else
      match fuel with
      | O => Leaf 0
      | S fuel' =>
          Plus (pairwise fuel' (firstn (length a / 2 - (length a / 2) mod 8) a))
               (pairwise fuel' (skipn (length a / 2 - (length a / 2) mod 8) a))
      end.
Proof.
  destruct fuel; cbn [pairwise];
    destruct (length a <? 8)%nat; try reflexivity;
    destruct (length a <=? 128)%nat; try reflexivity;
    destruct (accumulate _ _ _); reflexivity.
Qed.

Lemma pairwise_sum (fuel : nat) : forall a,
  (length a <= fuel)%nat -> tree_sum f (pairwise fuel a) = total (map f a).
Proof.
  induction fuel as [|fuel IH]; intros a L; rewrite pairwise_unfold.
  - destruct (Nat.ltb_spec (length a) 8) as [Hs | Hl]; [|lia].
    rewrite chain_sum. cbn [tree_sum]. lia.
  - destruct (Nat.ltb_spec (length a) 8) as [Hs | Hl].
    { rewrite chain_sum. cbn [tree_sum]. lia. }
    destruct (Nat.leb_spec (length a) 128) as [Hm | Hb].
    + destruct (accumulate_sum (length a) (map Leaf (firstn 8 a)) (skipn 8 a))
        as [L8 E]; [rewrite length_map, length_firstn; lia|].
      rewrite chain_sum, combine8_sum by exact L8.
      rewrite E, map_map. cbn [tree_sum].
      rewrite <- (firstn_skipn 8 a) at 3. rewrite map_app, total_app. reflexivity.
    + set (n2 := (length a / 2 - (length a / 2) mod 8)%nat).
      assert (H2 : (64 <= length a / 2)%nat)
        by (apply Nat.div_le_lower_bound; lia).
      assert (H3 : (length a / 2 < length a)%nat) by (apply Nat.div_lt; lia).
      assert (H4 : ((length a / 2) mod 8 < 8)%nat) by (apply Nat.mod_upper_bound; lia).
      assert (N1 : (0 < n2)%nat) by (unfold n2; lia).
      assert (N2 : (n2 < length a)%nat) by (unfold n2; lia).
      cbn [tree_sum]. rewrite !IH.
      * rewrite <- (firstn_skipn n2 a) at 3. rewrite map_app, total_app. reflexivity.
      * rewrite length_skipn. lia.
      * rewrite length_firstn. lia.
Qed.

End TreeSums.

(** [a.sum()] is the exact sum as long as the magnitudes add up to at most
    2^53: there the order of the additions does not matter. *)
Lemma np_sum_exact (objects : bool) (a : list Z) :
  total (map Z.abs a) <= 2 ^ 53 -> np_sum objects a = Flt (total a).
Proof.
  intros H. unfold np_sum. destruct objects.
  - destruct a as [|x a]; [reflexivity|].
    change (total (map Z.abs (x :: a))) with (Z.abs x + total (map Z.abs a)) in H.
    rewrite tree_float_exact.
    + rewrite chain_sum. cbn [tree_sum]. rewrite map_id. reflexivity.
    + rewrite chain_sum. cbn [tree_sum]. exact H.
  - rewrite tree_float_exact.
    + cbn [tree_sum]. rewrite pairwise_sum by (reflexivity || lia).
      rewrite map_id. reflexivity.
    + cbn [tree_sum]. rewrite pairwise_sum by (reflexivity || lia). exact H.
Qed.

(** ** Which integers have a float64 *)

(** The rounded magnitude of an integer of more than 53 bits: a 53-bit
    number, or 2^53, times a power of two. *)
Lemma fl_long (z : Z) :
  53 <= Z.log2 (Z.abs z) ->
  exists q, 2 ^ 52 <= q <= 2 ^ 53 /\
            fl z = Z.sgn z * (q * 2 ^ (Z.log2 (Z.abs z) - 52)) /\
            (q = 2 ^ 53 <->
             2 ^ (Z.log2 (Z.abs z) + 1) - 2 ^ (Z.log2 (Z.abs z) - 53) <= Z.abs z).
Proof.
  intros HL. unfold fl. set (m := Z.abs z) in *. set (L := Z.log2 m) in *.
  assert (Hm : 0 < m).
  { destruct (Z.eq_dec m 0) as [E | E]; [|unfold m in *; lia].
    unfold L in HL. rewrite E in HL. simpl in HL. lia. }
  destruct (Z.log2_spec m Hm) as [Lo Hi]. fold L in Lo, Hi.
  replace (L + 1 - 53) with (L - 52) by lia.
  destruct (Z.leb_spec (L - 52) 0) as [Hs | Hs]; [lia|].
  set (s := L - 52) in *.
  rewrite Z.shiftr_div_pow2, !Z.shiftl_mul_pow2 by lia.
  set (P := 2 ^ s).
  assert (HP : 0 < P) by (apply Z.pow_pos_nonneg; lia).
  assert (EL : 2 ^ L = 2 ^ 52 * P).
  { unfold P. rewrite <- Z.pow_add_r by lia. f_equal. unfold s. lia. }
  assert (EL1 : 2 ^ Z.succ L = 2 ^ 53 * P).
  { unfold P. rewrite <- Z.pow_add_r by lia. f_equal. unfold s. lia. }
  assert (EL' : 2 ^ (L + 1) = 2 ^ 53 * P) by (rewrite <- EL1; f_equal; lia).
  assert (Eh : P = 2 * 2 ^ (s - 1)).
  { unfold P. rewrite <- Z.pow_succ_r by lia. f_equal. lia. }
  assert (Eh' : 2 ^ (L - 53) = 2 ^ (s - 1)) by (f_equal; unfold s; lia).
  set (h := 2 ^ (s - 1)) in *.
  assert (Hh : 0 < h) by (apply Z.pow_pos_nonneg; lia).
  pose proof (Z.div_mod m P ltac:(lia)) as Edm.
  pose proof (Z.mod_pos_bound m P HP) as Hr.
  set (q := m / P) in *. set (r := m mod P) in *.
  assert (Hq : 2 ^ 52 <= q < 2 ^ 53).
  { split.
    - apply Z.div_le_lower_bound; lia.
    - apply Z.div_lt_upper_bound; lia. }
  replace (m - q * P) with r by lia.
  rewrite Z.mul_1_l.
  set (up := (h <? r) || ((r =? h) && Z.odd q)).
  exists (if up then q + 1 else q).
  split; [destruct up; lia|]. split; [reflexivity|].
  rewrite EL', Eh'.
  destruct up eqn:Eu; unfold up in Eu.
  - apply orb_true_iff in Eu. split; intros H.
    + assert (q = 2 ^ 53 - 1) by lia. destruct Eu as [Eu | Eu].
      * apply Z.ltb_lt in Eu. nia.
      * apply andb_true_iff in Eu. destruct Eu as [Eu _].
        apply Z.eqb_eq in Eu. nia.
    + assert (q = 2 ^ 53 - 1) by nia. lia.
  - apply orb_false_iff in Eu. destruct Eu as [Eu1 Eu2].
    apply Z.ltb_ge in Eu1. split; intros H; [lia|].
    exfalso. assert (Eq : q = 2 ^ 53 - 1) by nia.
    assert (Er : r = h) by nia.
    rewrite Eq, Er, Z.eqb_refl in Eu2. discriminate Eu2.
Qed.

(** The integers that round to a float64 below 2^1024, that is, to a finite
    one: those under 2^1024 - 2^970 in magnitude. *)
Lemma fl_finite_iff (z : Z) :
  Z.abs (fl z) < 2 ^ 1024 <-> Z.abs z < 2 ^ 1024 - 2 ^ 970.
Proof.
  destruct (Z.le_gt_cases 53 (Z.log2 (Z.abs z))) as [HL | HL].
  - destruct (fl_long z HL) as (q & Hq & E & Etop).
    set (m := Z.abs z) in *. set (L := Z.log2 m) in *.
    assert (Hm : 0 < m).
    { destruct (Z.eq_dec m 0) as [E0 | E0]; [|unfold m in *; lia].
      unfold L in HL. rewrite E0 in HL. simpl in HL. lia. }
    destruct (Z.log2_spec m Hm) as [Lo Hi]. fold L in Lo, Hi.
    assert (HP : 0 < 2 ^ (L - 52)) by (apply Z.pow_pos_nonneg; lia).
    assert (Eabs : Z.abs (fl z) = q * 2 ^ (L - 52)).
    { rewrite E. unfold m in Hm. destruct (Z.sgn_spec z) as [[? S]|[[? S]|[? S]]];
        rewrite S; nia. }
    rewrite Eabs.
    assert (EL : 2 ^ L = 2 ^ 52 * 2 ^ (L - 52)).
    { rewrite <- Z.pow_add_r by lia. f_equal. lia. }
    destruct (Z.lt_trichotomy L 1023) as [Hlt | [Heq | Hgt]].
    + assert (2 ^ L <= 2 ^ 1022) by (apply Z.pow_le_mono_r; lia).
      assert (2 ^ Z.succ L <= 2 ^ 1023) by (apply Z.pow_le_mono_r; lia).
      split; intros _; [lia | nia].
    + rewrite Heq in *.
      change (1023 + 1) with 1024 in Etop. change (1023 - 53) with 970 in Etop.
      change (1023 - 52) with 971 in *.
      split; intros X.
      * destruct (Z.lt_ge_cases m (2 ^ 1024 - 2 ^ 970)) as [Hc | Hc]; [exact Hc|].
        apply Etop in Hc. subst q. exfalso. revert X. clear. lia.
      * assert (q <> 2 ^ 53) by (intros Eq; apply Etop in Eq; lia).
        assert (Hq' : q <= 2 ^ 53 - 1) by lia. revert Hq'. clear. lia.
    + assert (2 ^ 1024 <= 2 ^ L) by (apply Z.pow_le_mono_r; lia).
      split; intros X; [nia | lia].
  - assert (Hz : Z.abs z < 2 ^ 53).
    { destruct (Z.eq_dec (Z.abs z) 0) as [E0 | E0]; [rewrite E0; reflexivity|].
      apply Z.log2_lt_pow2; lia. }
    rewrite fl_exact by lia. split; intros _; [|lia].
    eapply Z.lt_trans; [exact Hz | reflexivity].
Qed.

Lemma fl_sign (z : Z) : (0 <= z -> 0 <= fl z) /\ (z <= 0 -> fl z <= 0).
Proof.
  destruct (Z.le_gt_cases 53 (Z.log2 (Z.abs z))) as [HL | HL].
  - destruct (fl_long z HL) as (q & Hq & E & _). rewrite E.
    assert (HP : 0 < 2 ^ (Z.log2 (Z.abs z) - 52)) by (apply Z.pow_pos_nonneg; lia).
    destruct (Z.sgn_spec z) as [[? S]|[[? S]|[? S]]]; rewrite S; nia.
  - assert (Hz : Z.abs z < 2 ^ 53).
    { destruct (Z.eq_dec (Z.abs z) 0) as [E0 | E0]; [rewrite E0; reflexivity|].
      apply Z.log2_lt_pow2; lia. }
    rewrite fl_exact by lia. lia.
Qed.

(** [float(c)]: the nearest float64 for an int under 2^1024 - 2^970 in
    magnitude, [OverflowError] from there on. *)
Lemma float_of_int_cases (c : Z) :
  float_of_int c
  = if Z.abs c <? 2 ^ 1024 - 2 ^ 970 then Ok (fl c) else Raise OverflowError.
Proof.
  unfold float_of_int, to_float.
  pose proof (fl_finite_iff c) as F. pose proof (fl_sign c) as [S1 S2].
  destruct (Z.ltb_spec (Z.abs c) (2 ^ 1024 - 2 ^ 970)) as [H | H].
  - apply F in H.
    destruct (Z.leb_spec (2 ^ 1024) (fl c)); [lia|].
    destruct (Z.leb_spec (fl c) (- 2 ^ 1024)); [lia|]. reflexivity.
  - assert (H' : 2 ^ 1024 <= Z.abs (fl c)).
    { destruct (Z.lt_ge_cases (Z.abs (fl c)) (2 ^ 1024)) as [X | X]; [|exact X].
      apply F in X. lia. }
    destruct (Z.leb_spec (2 ^ 1024) (fl c)); [reflexivity|].
    destruct (Z.leb_spec (fl c) (- 2 ^ 1024)); [reflexivity|]. lia.
Qed.

(** The largest float64 and the first integer beyond. *)
Example float_of_int_limit :
  float_of_int (2 ^ 1024 - 2 ^ 970 - 1) = Ok (2 ^ 1024 - 2 ^ 971) /\
  float_of_int (2 ^ 1024 - 2 ^ 970) = Raise OverflowError.
Proof. split; vm_compute; reflexivity. Qed.

(** A finite float64 is at most [2^1024 - 2^971] in magnitude. *)
Lemma fl_finite_bound (z : Z) :
  Z.abs z < 2 ^ 1024 - 2 ^ 970 -> Z.abs (fl z) <= 2 ^ 1024 - 2 ^ 971.
Proof.
  intros Hz.
  destruct (Z.le_gt_cases 53 (Z.log2 (Z.abs z))) as [HL | HL].
  - destruct (fl_long z HL) as (q & Hq & E & Etop).
    set (m := Z.abs z) in *. set (L := Z.log2 m) in *.
    assert (Hm : 0 < m).
    { destruct (Z.eq_dec m 0) as [E0 | E0]; [|unfold m in *; lia].
      unfold L in HL. rewrite E0 in HL. simpl in HL. lia. }
    destruct (Z.log2_spec m Hm) as [Lo Hi]. fold L in Lo, Hi.
    assert (HP : 0 < 2 ^ (L - 52)) by (apply Z.pow_pos_nonneg; lia).
    assert (Eabs : Z.abs (fl z) = q * 2 ^ (L - 52)).
    { rewrite E. unfold m in Hm. destruct (Z.sgn_spec z) as [[? S]|[[? S]|[? S]]];
        rewrite S; nia. }
    rewrite Eabs.
    assert (EL : 2 ^ Z.succ L = 2 ^ 53 * 2 ^ (L - 52)).
    { rewrite <- Z.pow_add_r by lia. f_equal. lia. }
    destruct (Z.lt_trichotomy L 1023) as [Hlt | [Heq | Hgt]].
    + assert (2 ^ Z.succ L <= 2 ^ 1023) by (apply Z.pow_le_mono_r; lia).
      assert (q * 2 ^ (L - 52) <= 2 ^ 1023) by nia.
      eapply Z.le_trans; [eassumption|]. vm_compute. discriminate.
    + rewrite Heq in *.
      change (1023 + 1) with 1024 in Etop. change (1023 - 53) with 970 in Etop.
      change (1023 - 52) with 971 in *.
      assert (q <> 2 ^ 53) by (intros Eq; apply Etop in Eq; lia).
      assert (Hq' : q <= 2 ^ 53 - 1) by lia. revert Hq'. clear. lia.
    + assert (2 ^ 1024 <= 2 ^ L) by (apply Z.pow_le_mono_r; lia). lia.
  - assert (Hs : Z.abs z < 2 ^ 53).
    { destruct (Z.eq_dec (Z.abs z) 0) as [E0 | E0]; [rewrite E0; reflexivity|].
      apply Z.log2_lt_pow2; lia. }
    rewrite fl_exact by lia.
    apply Z.lt_le_incl. eapply Z.lt_trans; [exact Hs | reflexivity].
Qed.

(** Adding an int to an array entry below 2^970 in magnitude, such as the
    1.0 of the notebook's prior, gives a finite float64 or fails in the
    conversion of the int: no infinity arises. *)
Lemma add_float_int_finite (x c r : Z) :
  Z.abs x < 2 ^ 970 -> add_float_int x c = Ok r -> Z.abs r < 2 ^ 1024.
Proof.
  intros Hx. unfold add_float_int. rewrite float_of_int_cases.
  destruct (Z.ltb_spec (Z.abs c) (2 ^ 1024 - 2 ^ 970)) as [Hc | Hc];
    [|discriminate].
  cbn [bind]. intros E. assert (r = fl (x + fl c)) by congruence. subst r.
  apply fl_finite_iff. pose proof (fl_finite_bound c Hc) as B.
  revert Hx B. generalize (fl c). clear. intros y Hx B. lia.
Qed.

(** ** Arrays: sums, sorting, indexing *)

Lemma zip_add_length : forall xs ys,
  length xs = length ys -> length (zip_add xs ys) = length ys.
Proof.
  induction xs as [|x xs IH]; intros [|y ys] H; simpl in *; try congruence.
  f_equal. apply IH. congruence.
Qed.

Lemma zip_add_nth_error : forall xs ys i p c,
  nth_error xs i = Some p -> nth_error ys i = Some c ->
  nth_error (zip_add xs ys) i = Some (p + c).
Proof.
  induction xs as [|x xs IH]; intros [|y ys] [|i] p c Hp Hc;
    simpl in *; try discriminate.
  - congruence.
  - eapply IH; eassumption.
Qed.

Lemma zip_add_ones : forall a, zip_add (np_ones (length a)) a = map (Z.add 1) a.
Proof.
  induction a as [|x a IH]; [reflexivity|].
  simpl. unfold np_ones in IH. rewrite IH. reflexivity.
Qed.

Lemma np_ones_length (n : nat) : length (np_ones n) = n.
Proof. apply repeat_length. Qed.

Lemma insert_perm (x : Z) : forall l, Permutation (insert x l) (x :: l).
Proof.
  induction l as [|y l IH]; simpl; [reflexivity|].
  destruct (x <=? y); [reflexivity|].
  rewrite IH. apply perm_swap.
Qed.

Lemma np_sort_perm : forall a, Permutation (np_sort a) a.
Proof.
  induction a as [|x a IH]; simpl; [reflexivity|].
  rewrite insert_perm. constructor. exact IH.
Qed.

Lemma np_sort_length (a : list Z) : length (np_sort a) = length a.
Proof. apply Permutation_length, np_sort_perm. Qed.

Lemma insert_sorted (x : Z) : forall l,
  StronglySorted Z.le l -> StronglySorted Z.le (insert x l).
Proof.
  induction l as [|y l IH]; intros H; simpl.
  - repeat constructor.
  - inversion H as [|? ? Hl Hy]; subst.
    destruct (x <=? y) eqn:E.
    + apply Z.leb_le in E. constructor; [exact H|].
      constructor; [exact E|].
      eapply Forall_impl; [|exact Hy]. intros z Hz. lia.
    + apply Z.leb_gt in E. constructor; [apply IH, Hl|].
      apply (Permutation_Forall (Permutation_sym (insert_perm x l))).
      constructor; [lia | exact Hy].
Qed.

Lemma np_sort_sorted : forall a, StronglySorted Z.le (np_sort a).
Proof.
  induction a as [|x a IH]; simpl; [constructor | apply insert_sorted, IH].
Qed.

(** A list of two or more elements ends in two elements. *)
Lemma last_two (s : list Z) :
  (2 <= length s)%nat -> exists s' m2 m1, s = s' ++ [m2; m1].
Proof.
  intros H.
  destruct (exists_last (l := s)) as [t [m1 ->]]; [destruct s; simpl in H; [lia | discriminate]|].
  rewrite length_app in H. simpl in H.
  destruct (exists_last (l := t)) as [s' [m2 ->]]; [destruct t; simpl in H; [lia | discriminate]|].
  exists s', m2, m1. rewrite <- app_assoc. reflexivity.
Qed.

Lemma sorted_last_two : forall s' m2 m1,
  StronglySorted Z.le (s' ++ [m2; m1]) ->
  m2 <= m1 /\ Forall (fun x => x <= m2) s'.
Proof.
  induction s' as [|x s' IH]; intros m2 m1 H.
  - simpl in H. inversion H as [|? ? _ Hf]; subst.
    inversion Hf; subst. split; [assumption | constructor].
  - simpl in H. inversion H as [|? ? Hs Hf]; subst.
    destruct (IH _ _ Hs) as [H21 Hall]. split; [exact H21|].
    constructor; [|exact Hall].
    rewrite Forall_forall in Hf. apply Hf.
    apply in_or_app. right. left. reflexivity.
Qed.

(** Counting [k] places from the end, within range. *)
Lemma py_getitem_from_end (a : list Z) (k : nat) :
  (1 <= k <= length a)%nat ->
  py_getitem a (- Z.of_nat k) = Ok (nth (length a - k) a 0).
Proof.
  intros H. unfold py_getitem.
  destruct (Z.ltb_spec (- Z.of_nat k) 0); [|lia].
  destruct (Z.ltb_spec (- Z.of_nat k + Z.of_nat (length a)) 0); [lia|].
  destruct (Z.leb_spec (Z.of_nat (length a)) (- Z.of_nat k + Z.of_nat (length a)));
    [lia|].
  cbn [orb]. do 2 f_equal. lia.
Qed.

(** Counting further back than the array is long. *)
Lemma py_getitem_before_start (a : list Z) (k : nat) :
  (length a < k)%nat -> py_getitem a (- Z.of_nat k) = Raise IndexError.
Proof.
  intros H. unfold py_getitem.
  destruct (Z.ltb_spec (- Z.of_nat k) 0); [|lia].
  destruct (Z.ltb_spec (- Z.of_nat k + Z.of_nat (length a)) 0); [|lia].
  reflexivity.
Qed.

Lemma py_getitem_last (s' : list Z) (m2 m1 : Z) :
  py_getitem (s' ++ [m2; m1]) (- 1) = Ok m1.
Proof.
  change (- 1) with (- Z.of_nat 1).
  rewrite py_getitem_from_end by (rewrite length_app; simpl; lia).
  rewrite length_app, app_nth2 by (simpl; lia). cbn [length].
  replace (length s' + 2 - 1 - length s')%nat with 1%nat by lia. reflexivity.
Qed.

Lemma py_getitem_last_but_one (s' : list Z) (m2 m1 : Z) :
  py_getitem (s' ++ [m2; m1]) (- 2) = Ok m2.
Proof.
  change (- 2) with (- Z.of_nat 2).
  rewrite py_getitem_from_end by (rewrite length_app; simpl; lia).
  rewrite length_app, app_nth2 by (simpl; lia). cbn [length].
  replace (length s' + 2 - 2 - length s')%nat with 0%nat by lia. reflexivity.
Qed.

(** What [kth_largest] returns for k = 1 and k = 2 on two or more values:
    the maximum, and the maximum of what is left once one copy of it is
    taken away. *)
Lemma kth_largest_top_two (a : list Z) :
  (2 <= length a)%nat ->
  exists max1 max2 rest,
    kth_largest a 1 = Ok max1 /\ kth_largest a 2 = Ok max2 /\
    Permutation a (max1 :: max2 :: rest) /\
    max2 <= max1 /\ Forall (fun x => x <= max2) rest.
Proof.
  intros H. rewrite <- np_sort_length in H.
  destruct (last_two _ H) as (s' & m2 & m1 & E).
  pose proof (np_sort_sorted a) as Hs. rewrite E in Hs.
  destruct (sorted_last_two _ _ _ Hs) as [H21 Hall].
  exists m1, m2, s'. unfold kth_largest. rewrite E.
  repeat split; try assumption.
  - apply py_getitem_last.
  - apply py_getitem_last_but_one.
  - rewrite <- (np_sort_perm a), E.
    change (m1 :: m2 :: s') with ([m1; m2] ++ s').
    rewrite (Permutation_app_comm s'). apply Permutation_app_tail, perm_swap.
Qed.

(** With fewer than two values there is no second largest: the index -2 is
    out of range. *)
Lemma kth_largest_second_missing (a : list Z) :
  (length a < 2)%nat -> kth_largest a 2 = Raise IndexError.
Proof.
  intros H. unfold kth_largest.
  apply (py_getitem_before_start (np_sort a) 2).
  rewrite np_sort_length. exact H.
Qed.

(** ** The table on machine words holds the same numbers *)

Lemma big_row_step_spec (m d : bigZ) : forall r prev,
  map BigZ.to_Z (big_row_step m d prev r)
  = row_step (BigZ.to_Z m) (BigZ.to_Z d) (BigZ.to_Z prev) (map BigZ.to_Z r).
Proof.
  induction r as [|s r IH]; intros prev; simpl.
  - rewrite BigZ.spec_mul. reflexivity.
  - rewrite BigZ.spec_add, !BigZ.spec_mul, BigZ.spec_sub, IH. reflexivity.
Qed.

Lemma big_tail_row_spec (m d : bigZ) : forall n,
  map BigZ.to_Z (big_tail_row m d n) = tail_row (BigZ.to_Z m) (BigZ.to_Z d) n.
Proof.
  induction n as [|n IH]; [reflexivity|].
  simpl. rewrite big_row_step_spec, IH. f_equal.
  rewrite <- IH. destruct (big_tail_row m d n); reflexivity.
Qed.

Lemma big_binom_tail_spec (m d : bigZ) (n a : nat) :
  BigZ.to_Z (big_binom_tail m d n a)
  = binom_tail (BigZ.to_Z m) (BigZ.to_Z d) n a.
Proof.
  unfold big_binom_tail, binom_tail. rewrite <- big_tail_row_spec.
  change 0 with (BigZ.to_Z BigZ.zero). apply eq_sym, map_nth.
Qed.

(** The CDF at a fraction, through the machine-word table. *)
Lemma beta_cdf_big (a b m : Z) (d : positive) :
  beta_cdf a b (m # d)
  = BigZ.to_Z (big_binom_tail (BigZ.of_Z m) (BigZ.of_Z (Zpos d))
                 (Z.to_nat (a + b - 1)) (Z.to_nat a))
    # Z.to_pos (Zpos d ^ Z.of_nat (Z.to_nat (a + b - 1))).
Proof.
  unfold beta_cdf. cbn [Qnum Qden].
  rewrite big_binom_tail_spec, !BigZ.spec_of_Z. reflexivity.
Qed.

(** Two quantiles with a point of the grid between them: if the first CDF
    is still under its level at [t1] and the second has reached its level at
    [t2], a grid step below [t1], the first quantile is the larger one. *)
Lemma quantiles_apart (a1 b1 a2 b2 : Z) (l1 l2 t1 t2 : Q) :
  0 < a1 -> 0 < b1 -> 0 < a2 -> 0 < b2 ->
  (0 < l1)%Q -> (l1 < 1)%Q -> (0 < l2)%Q -> (l2 < 1)%Q ->
  (0 <= t2)%Q -> (t2 + (1 # halved ppf_bits 1) <= t1)%Q -> (t1 < 1)%Q ->
  (beta_cdf a1 b1 t1 < l1)%Q -> (l2 <= beta_cdf a2 b2 t2)%Q ->
  float_gt (ppf1 (beta a1 b1) l1) (ppf1 (beta a2 b2) l2) = true.
Proof.
  intros Ha1 Hb1 Ha2 Hb2 L1 L1' L2 L2' Ht2 Hsep Ht1 F1 F2.
  rewrite !ppf1_interior by assumption. cbn [float_gt].
  apply negb_true_iff. destruct (Qle_bool _ _) eqn:E; [|reflexivity].
  apply Qle_bool_iff in E. exfalso.
  assert (Hstep : (0 < 1 # halved ppf_bits 1)%Q) by (q_as_z; lia).
  assert (Ht1' : (0 <= t1)%Q).
  { eapply Qle_trans; [|exact Hsep].
    rewrite <- (Qplus_0_r 0). apply Qplus_le_compat; [assumption|].
    apply Qlt_le_weak, Hstep. }
  assert (Ht2' : (t2 <= 1)%Q).
  { apply Qlt_le_weak. eapply Qle_lt_trans; [|exact Ht1].
    eapply Qle_trans; [|exact Hsep].
    rewrite <- (Qplus_0_r t2) at 1. apply Qplus_le_compat; [apply Qle_refl|].
    apply Qlt_le_weak, Hstep. }
  pose proof (bisect_le_point (beta_cdf a2 b2) (beta_cdf_mono a2 b2)
                l2 t2 ppf_bits Ht2 Ht2' F2 0 1 ltac:(lia) ltac:(lia)
                (or_introl eq_refl)) as U.
  pose proof (point_lt_bisect (beta_cdf a1 b1) (beta_cdf_mono a1 b1)
                l1 t1 ppf_bits Ht1' Ht1 F1 0 1 ltac:(lia) ltac:(lia)
                (or_introl eq_refl)) as L.
  apply (Qlt_irrefl t1).
  eapply Qlt_le_trans; [exact L|].
  eapply Qle_trans; [|exact Hsep].
  apply Qplus_le_compat; [|apply Qle_refl].
  eapply Qle_trans; [exact E | exact U].
Qed.

(** ** The notebook against the specification's wording *)

(** [argmax] points at an entry no other entry exceeds. *)
Lemma argmax_spec : forall l,
  l <> [] ->
  (Spec.argmax l < length l)%nat /\
  Forall (fun x => x <= nth (Spec.argmax l) l 0) l.
Proof.
  induction l as [|x l IH]; intros Hne; [congruence|].
  destruct l as [|y l'].
  - simpl. split; [lia|]. repeat constructor. lia.
  - destruct IH as [Hlt Hall]; [discriminate|].
    set (l := y :: l') in *.
    change (Spec.argmax (x :: l))
      with (if nth (Spec.argmax l) l 0 <=? x then O else S (Spec.argmax l)).
    destruct (Z.leb_spec (nth (Spec.argmax l) l 0) x) as [Hle | Hgt].
    + split; [cbn [length]; lia|]. cbn [nth]. constructor; [cbv beta; lia|].
      eapply Forall_impl; [|exact Hall]. intros z Hz. cbv beta in *. lia.
    + split; [cbn [length]; lia|]. cbn [nth]. constructor; [cbv beta; lia | exact Hall].
Qed.

(** Taking the entry at [i] away leaves the rest. *)
Lemma remove_at_perm (l : list Z) (i : nat) :
  (i < length l)%nat ->
  Permutation l (nth i l 0 :: (firstn i l ++ skipn (S i) l)).
Proof.
  intros H.
  pose proof (firstn_skipn_middle i l (nth_error_nth' l 0 H)) as E.
  rewrite <- E at 1. apply Permutation_sym, Permutation_middle.
Qed.

(** [argmax_but i] points, in the whole list, at the entry that [argmax]
    finds once the entry at [i] is taken away. *)
Lemma argmax_but_spec (l : list Z) (i : nat) :
  (i < length l)%nat -> (2 <= length l)%nat ->
  let l' := firstn i l ++ skipn (S i) l in
  (Spec.argmax_but i l < length l)%nat /\
  nth (Spec.argmax_but i l) l 0 = nth (Spec.argmax l') l' 0.
Proof.
  intros Hi H2 l'.
  assert (Hlen : length l' = (length l - 1)%nat).
  { unfold l'. rewrite length_app, length_firstn, length_skipn. lia. }
  assert (Hne : l' <> []) by (intros E; rewrite E in Hlen; simpl in Hlen; lia).
  destruct (argmax_spec l' Hne) as [Hj _].
  unfold Spec.argmax_but. fold l'.
  assert (Hf : length (firstn i l) = i) by (rewrite length_firstn; lia).
  set (j := Spec.argmax l') in *.
  destruct (Nat.ltb_spec j i) as [Hlt | Hge].
  - split; [lia|]. unfold l'.
    rewrite app_nth1 by lia. rewrite nth_firstn.
    destruct (Nat.ltb_spec j i); [reflexivity | lia].
  - split; [lia|]. unfold l'.
    rewrite app_nth2 by lia. rewrite nth_skipn, Hf. f_equal. lia.
Qed.

(** The largest value of a list is one value, however it is found. *)
Lemma greatest_unique (l : list Z) (v w : Z) :
  In v l -> In w l ->
  Forall (fun x => x <= v) l -> Forall (fun x => x <= w) l -> v = w.
Proof.
  intros Iv Iw Fv Fw. rewrite Forall_forall in Fv, Fw.
  pose proof (Fv w Iw). pose proof (Fw v Iv). lia.
Qed.

(** On two or more values the specification's ranking, with its ties broken
    towards the lowest index, picks the values [kth_largest] returns. *)
Lemma ranking_agrees (post : list Z) (max1 max2 : Z) :
  (2 <= length post)%nat ->
  kth_largest post 1 = Ok max1 ->
  kth_largest post 2 = Ok max2 ->
  nth_error post (Spec.argmax post) = Some max1 /\
  nth_error post (Spec.argmax_but (Spec.argmax post) post) = Some max2.
Proof.
  intros H2 K1 K2.
  destruct (kth_largest_top_two post H2)
    as (m1 & m2 & rest & K1' & K2' & Hp & H21 & Hrest).
  assert (m1 = max1) by congruence. assert (m2 = max2) by congruence. subst m1 m2.
  assert (Hne : post <> []) by (intros E; rewrite E in H2; simpl in H2; lia).
  destruct (argmax_spec post Hne) as [Hi Hall].
  set (i := Spec.argmax post) in *.
  assert (Hall1 : Forall (fun x => x <= max1) (max1 :: max2 :: rest)).
  { constructor; [lia|]. constructor; [lia|].
    eapply Forall_impl; [|exact Hrest]. intros z Hz. cbv beta in *. lia. }
  assert (E1 : nth i post 0 = max1).
  { apply (greatest_unique post).
    - apply nth_In, Hi.
    - apply (Permutation_in _ (Permutation_sym Hp)). left. reflexivity.
    - exact Hall.
    - apply (Permutation_Forall (Permutation_sym Hp)), Hall1. }
  split; [rewrite (nth_error_nth' post 0 Hi), E1; reflexivity|].
  destruct (argmax_but_spec post i Hi H2) as [Hj E2].
  set (l' := firstn i post ++ skipn (S i) post) in *.
  assert (Hp' : Permutation l' (max2 :: rest)).
  { apply (Permutation_cons_inv (a := max1)).
    rewrite <- Hp, <- E1. apply Permutation_sym, remove_at_perm, Hi. }
  assert (Hne' : l' <> []).
  { intros E. rewrite E in Hp'. apply Permutation_nil in Hp'. discriminate. }
  destruct (argmax_spec l' Hne') as [Hj' Hall'].
  rewrite (nth_error_nth' post 0 Hj), E2. f_equal.
  apply (greatest_unique l').
  - apply nth_In, Hj'.
  - apply (Permutation_in _ (Permutation_sym Hp')). left. reflexivity.
  - exact Hall'.
  - apply (Permutation_Forall (Permutation_sym Hp')).
    constructor; [lia | exact Hrest].
Qed.

Lemma existsb_false_Forall (f : Z -> bool) (l : list Z) :
  Forall (fun x => f x = false) l -> existsb f l = false.
Proof. induction 1; simpl; [reflexivity|]. rewrite H, IHForall. reflexivity. Qed.

(** ** The posterior step *)

Lemma np_add_same_length (xs ys : list Z) :
  length xs = length ys -> np_add xs ys = add_elementwise xs ys.
Proof. intros H. unfold np_add. rewrite H, Nat.eqb_refl. reflexivity. Qed.

(** Within 2^53 the elementwise sum is the exact one. *)
Lemma add_elementwise_exact : forall xs ys,
  length xs = length ys ->
  Forall (fun c => Z.abs c <= 2 ^ 53) ys ->
  Forall (fun s => Z.abs s <= 2 ^ 53) (zip_add xs ys) ->
  add_elementwise xs ys = Ok (zip_add xs ys).
Proof.
  induction xs as [|x xs IH]; intros [|y ys] L Hy Hs; try discriminate L;
    [reflexivity|].
  inversion Hy as [|? ? Hy1 Hy2]; subst. cbn [zip_add] in Hs.
  inversion Hs as [|? ? Hs1 Hs2]; subst.
  cbn [add_elementwise zip_add]. rewrite add_float_int_exact by assumption.
  cbn [bind]. rewrite IH by (try assumption; simpl in L; lia). reflexivity.
Qed.

Lemma posterior_of_unfold (read_counts : list Z) :
  posterior_of read_counts
  = add_elementwise (np_ones (length read_counts)) read_counts.
Proof. unfold posterior_of. apply np_add_same_length, np_ones_length. Qed.


Lemma posterior_of_length (read_counts post : list Z) :
  posterior_of read_counts = Ok post -> length post = length read_counts.
Proof.
  rewrite posterior_of_unfold. apply add_elementwise_length, np_ones_length.
Qed.

Lemma exact_range_entries (read_counts : list Z) :
  exact_range read_counts ->
  Forall (fun c => 0 <= c /\ 1 + c <= 2 ^ 53) read_counts.
Proof.
  intros [Hv Ht]. apply Forall_forall. intros c Hc.
  rewrite Forall_forall in Hv. split; [apply Hv, Hc|].
  assert (Hin : In (1 + c) (map (Z.add 1) read_counts))
    by (apply in_map_iff; exists c; split; [reflexivity | exact Hc]).
  pose proof (abs_le_total_abs _ _ Hin) as Hle.
  rewrite total_abs_of_nonneg in Hle.
  - pose proof (Hv c Hc). lia.
  - apply Forall_map, Forall_forall. intros x Hx. pose proof (Hv x Hx).
    cbv beta. lia.
Qed.

(** In the exact range the posterior counts are the read counts plus one. *)
Lemma posterior_of_exact (read_counts : list Z) :
  exact_range read_counts ->
  posterior_of read_counts = Ok (map (Z.add 1) read_counts).
Proof.
  intros H. pose proof (exact_range_entries _ H) as He.
  rewrite posterior_of_unfold, <- zip_add_ones.
  apply add_elementwise_exact.
  - apply np_ones_length.
  - eapply Forall_impl; [|exact He]. intros c Hc. cbv beta in *. lia.
  - rewrite zip_add_ones. apply Forall_map.
    eapply Forall_impl; [|exact He]. intros c Hc. cbv beta in *. lia.
Qed.

(** There the posterior counts are positive and their float sums exact. *)
Lemma exact_range_posterior (read_counts : list Z) :
  exact_range read_counts ->
  Forall (fun x => 0 < x) (map (Z.add 1) read_counts) /\
  total (map Z.abs (map (Z.add 1) read_counts)) <= 2 ^ 53.
Proof.
  intros [Hv Ht].
  assert (Hpos : Forall (fun x => 0 < x) (map (Z.add 1) read_counts)).
  { apply Forall_map. eapply Forall_impl; [|exact Hv].
    intros c Hc. cbv beta in *. lia. }
  split; [exact Hpos|].
  rewrite total_abs_of_nonneg; [exact Ht|].
  eapply Forall_impl; [|exact Hpos]. intros c Hc. cbv beta in *. lia.
Qed.

(** ** [keep_largest_test], step by step *)

Lemma dist_ppf_quantiles (d : distribution) :
  dist_ppf d quantiles = [dist_ppf1 d (25 # 1000); dist_ppf1 d (975 # 1000)].
Proof. destruct d; reflexivity. Qed.

Lemma keep_largest_test_steps (read_counts post : list Z) (max1 max2 : Z) :
  posterior_of read_counts = Ok post ->
  kth_largest post 1 = Ok max1 ->
  kth_largest post 2 = Ok max2 ->
  keep_largest_test read_counts
  = Ok (float_gt
          (dist_ppf1 (scipy_beta (Flt max1) (float_sub (py_sum post) (Flt max1)))
                     (25 # 1000))
          (dist_ppf1 (scipy_beta (Flt max2) (float_sub (py_sum post) (Flt max2)))
                     (975 # 1000))).
Proof.
  unfold keep_largest_test, posterior_of. intros -> H1 H2.
  cbn [bind]. rewrite H1, H2. cbn [bind].
  rewrite !dist_ppf_quantiles. cbn [unpack2 bind].
  destruct (float_gt _ _); reflexivity.
Qed.

(** What [kth_largest] returns is an entry of the array. *)
Lemma kth_largest_in (a : list Z) (k v : Z) : kth_largest a k = Ok v -> In v a.
Proof.
  unfold kth_largest, py_getitem. intros H.
  destruct (_ || _) eqn:E; [discriminate|].
  apply orb_false_iff in E. destruct E as [E1 E2].
  apply Z.ltb_ge in E1. apply Z.leb_gt in E2.
  apply (proj1 (Ok_inj _ _)) in H. subst v.
  apply (Permutation_in _ (np_sort_perm a)), nth_In. lia.
Qed.

(** Where the posterior counts add up to at most 2^53 in magnitude, the two
    marginals have the exact shapes. *)
Lemma keep_largest_test_steps_exact (read_counts post : list Z) (max1 max2 : Z) :
  posterior_of read_counts = Ok post ->
  kth_largest post 1 = Ok max1 ->
  kth_largest post 2 = Ok max2 ->
  total (map Z.abs post) <= 2 ^ 53 ->
  keep_largest_test read_counts
  = Ok (float_gt (ppf1 (beta max1 (total post - max1)) (25 # 1000))
                 (ppf1 (beta max2 (total post - max2)) (975 # 1000))).
Proof.
  intros E K1 K2 Hb.
  rewrite (keep_largest_test_steps _ _ _ _ E K1 K2).
  rewrite (py_sum_exact _ Hb).
  rewrite !float_sub_exact.
  - reflexivity.
  - pose proof (abs_rest_le_total_abs _ _ (kth_largest_in _ _ _ K2)). lia.
  - pose proof (abs_rest_le_total_abs _ _ (kth_largest_in _ _ _ K1)). lia.
Qed.


Lemma total_pos_rest (l : list Z) :
  Forall (fun x => 0 < x) l -> 0 <= total l.
Proof.
  intros H. apply total_nonneg. eapply Forall_impl; [|exact H].
  intros c Hc. cbv beta in *. lia.
Qed.

(** Positive counts in two or more categories give shapes that scipy
    accepts. *)
Lemma posterior_shapes (post rest : list Z) (max1 max2 : Z) :
  Forall (fun x => 0 < x) post ->
  Permutation post (max1 :: max2 :: rest) ->
  0 < max1 /\ 0 < max2 /\ 0 < total post - max1 /\ 0 < total post - max2.
Proof.
  intros Hpos Hp.
  apply (Permutation_Forall Hp) in Hpos.
  inversion Hpos as [|? ? P1 Hpos']; subst.
  inversion Hpos' as [|? ? P2 Hrest]; subst.
  rewrite (total_perm _ _ Hp).
  pose proof (total_pos_rest _ Hrest).
  change (total (max1 :: max2 :: rest)) with (max1 + (max2 + total rest)). lia.
Qed.

(** ** The notebook's rule and the specification's *)

(** For counts in the exact range, in two or more categories,
    [keep_largest_test] is the specification's [keep_top_category] with no
    prior given and the levels (0.025, 0.975). *)
Lemma keep_largest_test_is_rule_at_fixed_levels (read_counts : list Z) :
  (2 <= length read_counts)%nat ->
  exact_range read_counts ->
  keep_largest_test read_counts
  = Spec.keep_top_category read_counts None (25 # 1000, 975 # 1000)%Q.
Proof.
  intros H2 Hx.
  pose proof (posterior_of_exact read_counts Hx) as E.
  destruct (exact_range_posterior read_counts Hx) as [_ Hb].
  destruct Hx as [Hv _].
  set (post := map (Z.add 1) read_counts) in *.
  assert (Hlen : length post = length read_counts) by apply length_map.
  assert (H2' : (2 <= length post)%nat) by lia.
  destruct (kth_largest_top_two post H2')
    as (max1 & max2 & rest & K1 & K2 & _).
  destruct (ranking_agrees post max1 max2 H2' K1 K2) as [R1 R2].
  rewrite (keep_largest_test_steps_exact read_counts post max1 max2 E K1 K2 Hb).
  unfold Spec.keep_top_category, Spec.compute_posterior.
  rewrite repeat_length, Nat.eqb_refl. cbn [negb orb].
  assert (Nat.eqb (length read_counts) 0 = false) as -> by (apply Nat.eqb_neq; lia).
  rewrite existsb_false_Forall
    by (eapply Forall_impl; [|exact Hv]; intros c Hc; apply Z.ltb_ge; exact Hc).
  rewrite existsb_false_Forall
    by (apply Forall_forall; intros x Hx; apply repeat_spec in Hx; subst x; reflexivity).
  cbn [orb bind].
  change (repeat 1 (length read_counts)) with (np_ones (length read_counts)).
  rewrite zip_add_ones. fold post.
  assert (Nat.eqb (length post) 1 = false) as -> by (apply Nat.eqb_neq; lia).
  unfold Spec.marginal_for_category. rewrite R1, R2. cbn [bind].
  reflexivity.
Qed.

(** ** How [keep_largest_test] fails *)

(** The posterior step on any counts: every count is converted and one is
    added, and the first count without a float64 ends it. *)
Lemma posterior_of_cases (read_counts : list Z) :
  posterior_of read_counts
  = if forallb (fun c => Z.abs c <? 2 ^ 1024 - 2 ^ 970) read_counts
    then Ok (map (fun c => fl (1 + fl c)) read_counts)
    else Raise OverflowError.
Proof.
  rewrite posterior_of_unfold.
  induction read_counts as [|c rc IH]; [reflexivity|].
  cbn [length np_ones repeat add_elementwise forallb map].
  unfold np_ones in IH. rewrite IH.
  unfold add_float_int. rewrite float_of_int_cases.
  destruct (Z.abs c <? 2 ^ 1024 - 2 ^ 970); [|reflexivity].
  cbn [bind andb]. destruct (forallb _ rc); reflexivity.
Qed.

Lemma forallb_convertible (read_counts : list Z) :
  forallb (fun c => Z.abs c <? 2 ^ 1024 - 2 ^ 970) read_counts = true
  <-> Forall (fun c => Z.abs c < 2 ^ 1024 - 2 ^ 970) read_counts.
Proof.
  rewrite forallb_forall, Forall_forall.
  split; intros H c Hc; [apply Z.ltb_lt | apply Z.ltb_lt]; apply H, Hc.
Qed.

(** Every posterior count is a finite float64. *)
Lemma posterior_entries_finite (read_counts post : list Z) :
  posterior_of read_counts = Ok post ->
  Forall (fun v => Z.abs v < 2 ^ 1024) post.
Proof.
  rewrite posterior_of_cases.
  destruct (forallb _ read_counts) eqn:Ec; [|discriminate].
  intros E. apply (proj1 (Ok_inj _ _)) in E. subst post.
  apply Forall_map, Forall_forall. intros c Hc.
  rewrite forallb_forall in Ec. pose proof (Ec c Hc) as H.
  apply (add_float_int_finite 1 c); [reflexivity|].
  unfold add_float_int. rewrite float_of_int_cases, H. reflexivity.
Qed.

(** A failure of the posterior step is the failure of [keep_largest_test]. *)
Lemma keep_largest_test_no_posterior (read_counts : list Z) (e : exn) :
  posterior_of read_counts = Raise e -> keep_largest_test read_counts = Raise e.
Proof. unfold keep_largest_test, posterior_of. intros ->. reflexivity. Qed.

Lemma kth_largest_error_kind (a : list Z) (k : Z) (e : exn) :
  kth_largest a k = Raise e -> e = IndexError.
Proof.
  unfold kth_largest, py_getitem. destruct (_ || _); congruence.
Qed.

(** With a posterior of fewer than two counts, one of the two calls of
    [kth_largest] raises [IndexError]. *)
Lemma keep_largest_test_short (read_counts post : list Z) :
  posterior_of read_counts = Ok post -> (length post < 2)%nat ->
  keep_largest_test read_counts = Raise IndexError.
Proof.
  unfold keep_largest_test, posterior_of. intros -> Hs. cbn [bind].
  destruct (kth_largest post 1) as [max1|e] eqn:K1; cbn [bind].
  - rewrite kth_largest_second_missing by exact Hs. reflexivity.
  - rewrite (kth_largest_error_kind _ _ _ K1). reflexivity.
Qed.

(** With a posterior of two or more counts the answer is a boolean. *)
Lemma keep_largest_test_long (read_counts post : list Z) :
  posterior_of read_counts = Ok post -> (2 <= length post)%nat ->
  exists b, keep_largest_test read_counts = Ok b.
Proof.
  intros E Hl.
  destruct (kth_largest_top_two post Hl) as (max1 & max2 & rest & K1 & K2 & _).
  rewrite (keep_largest_test_steps _ _ _ _ E K1 K2). eexists. reflexivity.
Qed.

(** ** Two categories *)

(** Successes of one coin are failures of the other:
    [P (Bin (n, x) >= a) + P (Bin (n, 1 - x) >= n + 1 - a) = 1]. *)
Lemma binom_tail_mirror (m d : Z) : forall n a,
  (a <= n + 1)%nat ->
  binom_tail m d n a + binom_tail (d - m) d n (n + 1 - a) = d ^ Z.of_nat n.
Proof.
  induction n as [|n IH]; intros a Ha.
  - destruct a as [|[|a]]; [reflexivity | reflexivity | lia].
  - destruct a as [|a].
    + rewrite binom_tail_n_0, binom_tail_beyond by lia. lia.
    + destruct (Nat.eq_dec a (S n)) as [-> | Hne].
      * rewrite binom_tail_beyond by lia.
        replace (S n + 1 - S (S n))%nat with 0%nat by lia.
        rewrite binom_tail_n_0. lia.
      * replace (S n + 1 - S a)%nat with (S (n - a)) by lia.
        rewrite !binom_tail_S_S.
        pose proof (IH a ltac:(lia)) as I1.
        pose proof (IH (S a) ltac:(lia)) as I2.
        replace (n + 1 - a)%nat with (S (n - a)) in I1 by lia.
        replace (n + 1 - S a)%nat with (n - a)%nat in I2 by lia.
        rewrite Nat2Z.inj_succ, Z.pow_succ_r by lia.
        replace (d - (d - m)) with m by lia.
        nia.
Qed.

Lemma pow2_not_multiple_of_5 (n : nat) : (2 ^ Z.of_nat n) mod 5 <> 0.
Proof.
  induction n as [|n IH]; [discriminate|].
  rewrite Nat2Z.inj_succ, Z.pow_succ_r by lia.
  set (x := 2 ^ Z.of_nat n) in *. clearbody x.
  intros H. apply IH. Z.div_mod_to_equations. lia.
Qed.

(** One step of the bisection. *)
Lemma bisect_S (F : Q -> Q) (q : Q) (fuel : nat) (c : Z) (p : positive) :
  bisect F q (S fuel) c p
  = if Qle_bool q (F ((2 * c + 1) # (p~0)%positive))
    then bisect F q fuel (2 * c) (p~0)%positive
    else bisect F q fuel (2 * c + 1) (p~0)%positive.
Proof. reflexivity. Qed.

(** The answer is the lower end of the last bracket: a whole grid step fits
    between it and the upper end of the first. *)
Lemma bisect_below_top (F : Q -> Q) (q : Q) (fuel : nat) : forall c p,
  (bisect F q fuel c p + (1 # halved fuel p) <= (c + 1) # p)%Q.
Proof.
  induction fuel as [|fuel IH]; intros c p.
  - unfold bisect, halved, Qplus, Qle. cbn [Qnum Qden].
    rewrite Pos2Z.inj_mul. nia.
  - rewrite bisect_S. cbn [halved].
    destruct (Qle_bool _ _).
    + eapply Qle_trans; [apply IH|]. unfold Qle. cbn [Qnum Qden]. lia.
    + eapply Qle_trans; [apply IH|]. unfold Qle. cbn [Qnum Qden]. lia.
Qed.

(** Beta(a, b) and Beta(b, a) are mirror images, and the first halving of
    the bisection is at 1/2: the 0.025 quantile of the one is above the 0.975
    quantile of the other exactly when Beta(a, b) is still under 0.025 at
    1/2. *)
Lemma mirror_pair_decision (a b : Z) :
  0 < a -> 0 < b ->
  float_gt (ppf1 (beta a b) (25 # 1000)) (ppf1 (beta b a) (975 # 1000))
  = (40 * binom_tail 1 2 (Z.to_nat (a + b - 1)) (Z.to_nat a) <? 2 ^ (a + b - 1)).
Proof.
  intros Ha Hb.
  rewrite !ppf1_interior by (assumption || reflexivity). cbn [float_gt].
  change ppf_bits with (S 52).
  rewrite (bisect_S (beta_cdf a b) (25 # 1000) 52 0 1).
  rewrite (bisect_S (beta_cdf b a) (975 # 1000) 52 0 1).
  change ((2 * 0 + 1) # 2)%Q with (1 # 2)%Q.
  replace (b + a - 1) with (a + b - 1) by lia.
  set (n := Z.to_nat (a + b - 1)).
  assert (Hn : a + b - 1 = Z.of_nat n) by (unfold n; lia).
  set (S1 := binom_tail 1 2 n (Z.to_nat a)).
  assert (Hpow : 0 < 2 ^ Z.of_nat n) by (apply Z.pow_pos_nonneg; lia).
  assert (E1 : Qle_bool (25 # 1000) (beta_cdf a b (1 # 2))
               = (2 ^ Z.of_nat n <=? 40 * S1)).
  { unfold Qle_bool, beta_cdf. cbn [Qnum Qden]. fold n. fold S1.
    rewrite Z2Pos.id by exact Hpow.
    destruct (Z.leb_spec (25 * 2 ^ Z.of_nat n) (S1 * 1000));
      destruct (Z.leb_spec (2 ^ Z.of_nat n) (40 * S1)); lia. }
  assert (E2 : Qle_bool (975 # 1000) (beta_cdf b a (1 # 2))
               = (40 * S1 <=? 2 ^ Z.of_nat n)).
  { unfold Qle_bool, beta_cdf. cbn [Qnum Qden].
    replace (b + a - 1) with (a + b - 1) by lia. fold n.
    rewrite Z2Pos.id by exact Hpow.
    pose proof (binom_tail_mirror 1 2 n (Z.to_nat a) ltac:(lia)) as M.
    change (2 - 1) with 1 in M.
    replace (n + 1 - Z.to_nat a)%nat with (Z.to_nat b) in M by lia.
    fold S1 in M.
    destruct (Z.leb_spec (975 * 2 ^ Z.of_nat n) (binom_tail 1 2 n (Z.to_nat b) * 1000));
      destruct (Z.leb_spec (40 * S1) (2 ^ Z.of_nat n)); lia. }
  rewrite E1, E2, Hn. clear E1 E2.
  set (F1 := beta_cdf a b). set (F2 := beta_cdf b a).
  destruct (bisect_bracket F1 (25 # 1000) 52 (2 * 0) 2) as [_ L1hi].
  destruct (bisect_bracket F1 (25 # 1000) 52 (2 * 0 + 1) 2) as [L1lo _].
  destruct (bisect_bracket F2 (975 # 1000) 52 (2 * 0 + 1) 2) as [U2lo _].
  pose proof (bisect_below_top F2 (975 # 1000) 52 (2 * 0) 2) as U2hi.
  assert (Hstep : (0 < 1 # halved 52 2)%Q) by reflexivity.
  destruct (Z.ltb_spec (40 * S1) (2 ^ Z.of_nat n)) as [Hlt | Hge].
  - (* under the level at 1/2: the lower quantile is in the upper half *)
    destruct (Z.leb_spec (2 ^ Z.of_nat n) (40 * S1)); [lia|].
    destruct (Z.leb_spec (40 * S1) (2 ^ Z.of_nat n)); [|lia].
    cbv iota. apply negb_true_iff, not_true_is_false. intros B.
    apply Qle_bool_iff in B.
    apply (Qlt_irrefl ((2 * 0 + 1) # 2)).
    eapply Qle_lt_trans; [exact L1lo|].
    eapply Qle_lt_trans; [exact B|].
    eapply Qlt_le_trans; [|exact U2hi].
    rewrite <- (Qplus_0_r (bisect F2 (975 # 1000) 52 (2 * 0) 2)) at 1.
    apply Qplus_lt_r. exact Hstep.
  - (* at or over the level at 1/2: the lower quantile is in the lower half *)
    assert (Hne : 40 * S1 <> 2 ^ Z.of_nat n).
    { intros E. apply (pow2_not_multiple_of_5 n). rewrite <- E.
      Z.div_mod_to_equations. lia. }
    destruct (Z.leb_spec (2 ^ Z.of_nat n) (40 * S1)); [|lia].
    destruct (Z.leb_spec (40 * S1) (2 ^ Z.of_nat n)); [lia|].
    cbv iota. apply negb_false_iff, Qle_bool_iff.
    eapply Qle_trans; [exact L1hi|].
    eapply Qle_trans; [|exact U2lo].
    apply Qle_refl.
Qed.

(** The decision for two categories, as a comparison of integers. *)

Lemma exact_range_pair (c1 c2 : Z) :
  0 <= c1 -> 0 <= c2 -> c1 + c2 + 2 <= 2 ^ 53 -> exact_range [c1; c2].
Proof.
  intros H1 H2 Hb. split; [repeat constructor; assumption|].
  change (total (map (Z.add 1) [c1; c2])) with (1 + c1 + (1 + c2 + 0)). lia.
Qed.

(** The decision for two categories, as a comparison of integers. *)
Lemma two_categories_sign_test_eq (c1 c2 : Z) :
  0 <= c1 -> 0 <= c2 -> c1 + c2 + 2 <= 2 ^ 53 ->
  keep_largest_test [c1; c2]
  = Ok (40 * binom_tail 1 2 (Z.to_nat (c1 + c2 + 1)) (Z.to_nat (Z.max c1 c2 + 1))
        <? 2 ^ (c1 + c2 + 1)).
Proof.
  intros H1 H2 Hb.
  pose proof (exact_range_pair c1 c2 H1 H2 Hb) as Hx.
  pose proof (posterior_of_exact _ Hx) as E.
  destruct (exact_range_posterior _ Hx) as [_ Hs].
  cbn [map] in E, Hs.
  assert (K : exists a b,
             kth_largest [1 + c1; 1 + c2] 1 = Ok a /\
             kth_largest [1 + c1; 1 + c2] 2 = Ok b /\
             a = Z.max c1 c2 + 1 /\ a + b = c1 + c2 + 2 /\ 0 < a /\ 0 < b).
  { unfold kth_largest. cbn [np_sort insert].
    destruct (Z.leb_spec (1 + c1) (1 + c2)).
    - exists (1 + c2), (1 + c1). repeat split; lia.
    - exists (1 + c1), (1 + c2). repeat split; lia. }
  destruct K as (a & b & K1 & K2 & Ea & Eab & Pa & Pb).
  rewrite (keep_largest_test_steps_exact [c1; c2] [1 + c1; 1 + c2] a b E K1 K2 Hs).
  apply (f_equal Ok).
  change (total [1 + c1; 1 + c2]) with (1 + c1 + (1 + c2 + 0)).
  replace (1 + c1 + (1 + c2 + 0) - a) with b by lia.
  replace (1 + c1 + (1 + c2 + 0) - b) with a by lia.
  rewrite (mirror_pair_decision a b Pa Pb).
  replace (a + b - 1) with (c1 + c2 + 1) by lia. rewrite Ea. reflexivity.
Qed.

(** Beta(a, 1) against Beta(1, a): from [a = 6] on the lower quantile of
    the first is above the upper quantile of the second. *)
Lemma lone_leader_separated (a : Z) :
  0 < a ->
  float_gt (ppf1 (beta a 1) (25 # 1000)) (ppf1 (beta 1 a) (975 # 1000))
  = (6 <=? a).
Proof.
  intros Ha. rewrite mirror_pair_decision by lia.
  replace (a + 1 - 1) with a by lia.
  rewrite binom_tail_n_n, Z.pow_1_l by lia.
  destruct (Z.leb_spec 6 a) as [H6 | H6]; [apply Z.ltb_lt | apply Z.ltb_ge].
  - assert (2 ^ 6 <= 2 ^ a) by (apply Z.pow_le_mono_r; lia).
    change (2 ^ 6) with 64 in *. lia.
  - assert (2 ^ a <= 2 ^ 5) by (apply Z.pow_le_mono_r; lia).
    change (2 ^ 5) with 32 in *. lia.
Qed.

(** * The claims *)

(** C2, as the notebook has it.  The posterior step is numpy's
    [prior + counts] on float64.  For a prior and counts of one positive
    length [n] whose entries and sums stay within 2^53 in magnitude, it
    returns a vector of length [n] whose i-th entry is
    [prior[i] + counts[i]], and nothing else happens: the step is a function
    of its two arguments.  With the notebook's prior, [np.ones(n)], it is the
    posterior that [keep_largest_test] and [plot_posterior] use. *)
Theorem posterior_is_elementwise_sum (prior counts : list Z) (n : nat) :
  length prior = n -> length counts = n -> (0 < n)%nat ->
  Forall (fun p => Z.abs p <= 2 ^ 53) prior ->
  Forall (fun c => Z.abs c <= 2 ^ 53) counts ->
  Forall (fun s => Z.abs s <= 2 ^ 53) (zip_add prior counts) ->
  exists post,
    np_add prior counts = Ok post /\
    length post = n /\
    (forall i p c,
        nth_error prior i = Some p -> nth_error counts i = Some c ->
        nth_error post i = Some (p + c)) /\
    (prior = np_ones n -> posterior_of counts = Ok post).
Proof.
  intros Hp Hc _ _ Bc Bs. exists (zip_add prior counts).
  assert (Hlen : length prior = length counts) by congruence.
  assert (E : np_add prior counts = Ok (zip_add prior counts)).
  { rewrite np_add_same_length by exact Hlen.
    apply add_elementwise_exact; assumption. }
  repeat split.
  - exact E.
  - rewrite zip_add_length; assumption.
  - intros i p c. apply zip_add_nth_error.
  - intros Ep. unfold posterior_of. rewrite Hc, <- Ep. exact E.
Qed.

Lemma posterior_is_elementwise_sum_witness :
  exists post,
    np_add [1; 1; 1] [127; 1; 30] = Ok post /\
    length post = 3%nat /\
    (forall i p c,
        nth_error [1; 1; 1] i = Some p -> nth_error [127; 1; 30] i = Some c ->
        nth_error post i = Some (p + c)) /\
    ([1; 1; 1] = np_ones 3 -> posterior_of [127; 1; 30] = Ok post).
Proof.
  apply (posterior_is_elementwise_sum [1; 1; 1] [127; 1; 30] 3);
    [ reflexivity | reflexivity | lia
    | repeat constructor; vm_compute; discriminate
    | repeat constructor; vm_compute; discriminate
    | repeat constructor; vm_compute; discriminate ].
Defined.

(** C2 as stated fails: beyond 2^53 an entry is not [prior[i] + counts[i]].
    For [counts = [2^53, 0]] the first posterior count is 2^53, the float64
    nearest to [1 + 2^53]. *)
Lemma posterior_entry_is_rounded :
  np_add [1; 1] [2 ^ 53; 0] = Ok [2 ^ 53; 1] /\
  posterior_of [2 ^ 53; 0] = Ok [2 ^ 53; 1] /\
  2 ^ 53 <> 1 + 2 ^ 53.
Proof. repeat split; try reflexivity. discriminate. Qed.

(** C4, as the notebook has it.  For counts in the exact range and every
    index [i] of the posterior, the marginal built for category [i] -- by the
    loop of [plot_posterior] with [posterior_counts.sum()], by
    [keep_largest_test] with [sum(posterior_counts)], and as the
    specification's [marginal_for_category] -- has shapes
    [a = posterior[i]] and [b = sum(posterior) - posterior[i]]; so [a + b] is
    the total posterior mass, the same for every [i]. *)
Theorem marginal_shapes_sum_to_total (read_counts : list Z) :
  exact_range read_counts ->
  exists post dists,
    posterior_of read_counts = Ok post /\
    plot_posterior read_counts = Ok dists /\
    length dists = length post /\
    forall i count,
      nth_error post i = Some count ->
      exists d,
        nth_error dists i = Some (Shapes d) /\
        scipy_beta (Flt count) (float_sub (py_sum post) (Flt count)) = Shapes d /\
        Spec.marginal_for_category post i = Ok d /\
        shape_a d = count /\
        shape_b d = total post - count /\
        shape_a d + shape_b d = total post.
Proof.
  intros Hx.
  pose proof (posterior_of_exact read_counts Hx) as E.
  destruct (exact_range_posterior read_counts Hx) as [_ Hb].
  set (post := map (Z.add 1) read_counts) in *.
  exists post. eexists. split; [exact E|].
  unfold posterior_of in E. unfold plot_posterior. rewrite E. cbn [bind].
  split; [reflexivity|]. split; [apply length_map|].
  intros i count Hi.
  assert (Hin : In count post) by (eapply nth_error_In; exact Hi).
  pose proof (abs_rest_le_total_abs _ _ Hin) as Hr.
  exists (beta count (total post - count)).
  split; [|split; [|split; [|cbn [shape_a shape_b]; repeat split; lia]]].
  - rewrite nth_error_map, Hi. cbn [option_map].
    rewrite (np_sum_exact _ _ Hb), float_sub_exact by lia. reflexivity.
  - rewrite (py_sum_exact _ Hb), float_sub_exact by lia. reflexivity.
  - unfold Spec.marginal_for_category. rewrite Hi. reflexivity.
Qed.

Lemma marginal_shapes_sum_to_total_witness :
  exists post dists,
    posterior_of [127; 1; 30] = Ok post /\
    plot_posterior [127; 1; 30] = Ok dists /\
    length dists = length post /\
    forall i count,
      nth_error post i = Some count ->
      exists d,
        nth_error dists i = Some (Shapes d) /\
        scipy_beta (Flt count) (float_sub (py_sum post) (Flt count)) = Shapes d /\
        Spec.marginal_for_category post i = Ok d /\
        shape_a d = count /\
        shape_b d = total post - count /\
        shape_a d + shape_b d = total post.
Proof.
  apply (marginal_shapes_sum_to_total [127; 1; 30]).
  split; [repeat constructor; lia | vm_compute; discriminate].
Defined.

(** C4 as stated fails: beyond 2^53 the two shapes of a marginal do not add
    up to one total.  For [counts = [2, 2^53 - 1]] the posterior is
    [[3, 2^53]]; its float sum is [2^53 + 4], and the marginals are
    Beta(3, 2^53) and Beta(2^53, 4), in [plot_posterior] and in
    [keep_largest_test] alike. *)
Lemma marginal_shapes_beyond_exact_range :
  posterior_of [2; 2 ^ 53 - 1] = Ok [3; 2 ^ 53] /\
  plot_posterior [2; 2 ^ 53 - 1]
  = Ok [Shapes (beta 3 (2 ^ 53)); Shapes (beta (2 ^ 53) 4)] /\
  scipy_beta (Flt 3) (float_sub (py_sum [3; 2 ^ 53]) (Flt 3))
  = Shapes (beta 3 (2 ^ 53)) /\
  scipy_beta (Flt (2 ^ 53)) (float_sub (py_sum [3; 2 ^ 53]) (Flt (2 ^ 53)))
  = Shapes (beta (2 ^ 53) 4) /\
  3 + 2 ^ 53 <> 2 ^ 53 + 4.
Proof. repeat split; try (vm_compute; reflexivity). discriminate. Qed.

(** C9. For positive shapes and levels [0 < q_lo < q_hi < 1], the credible
    interval read off the quantile function satisfies
    [0 <= lower <= upper <= 1]. *)
Theorem credible_interval_ordered (a b : Z) (q_lo q_hi : Q) :
  0 < a -> 0 < b -> (0 < q_lo)%Q -> (q_lo < q_hi)%Q -> (q_hi < 1)%Q ->
  exists lower upper,
    ppf (beta a b) [q_lo; q_hi] = [Fin lower; Fin upper] /\
    Spec.credible_interval (beta a b) (q_lo, q_hi) = Ok (Fin lower, Fin upper) /\
    (0 <= lower)%Q /\ (lower <= upper)%Q /\ (upper <= 1)%Q.
Proof.
  intros Ha Hb H0 Hlt H1.
  assert (Hlo1 : (q_lo < 1)%Q) by (eapply Qlt_trans; eassumption).
  assert (Hhi0 : (0 < q_hi)%Q) by (eapply Qlt_trans; eassumption).
  pose proof (ppf1_interior a b q_lo Ha Hb H0 Hlo1) as El.
  pose proof (ppf1_interior a b q_hi Ha Hb Hhi0 H1) as Eu.
  exists (bisect (beta_cdf a b) q_lo ppf_bits 0 1),
         (bisect (beta_cdf a b) q_hi ppf_bits 0 1).
  split; [unfold ppf; cbn [map]; rewrite El, Eu; reflexivity|].
  split.
  - unfold Spec.credible_interval.
    assert (Qle_bool q_lo 0 = false) as ->.
    { destruct (Qle_bool q_lo 0) eqn:E; [|reflexivity].
      apply Qle_bool_iff in E. exfalso. exact (Qlt_not_le _ _ H0 E). }
    assert (Qle_bool 1 q_hi = false) as ->.
    { destruct (Qle_bool 1 q_hi) eqn:E; [|reflexivity].
      apply Qle_bool_iff in E. exfalso. exact (Qlt_not_le _ _ H1 E). }
    assert (Qle_bool q_hi q_lo = false) as ->.
    { destruct (Qle_bool q_hi q_lo) eqn:E; [|reflexivity].
      apply Qle_bool_iff in E. exfalso. exact (Qlt_not_le _ _ Hlt E). }
    cbn [orb]. rewrite El, Eu. reflexivity.
  - destruct (ppf1_range _ _ _ El) as [L0 _].
    destruct (ppf1_range _ _ _ Eu) as [_ U1].
    repeat split; try assumption.
    apply (ppf1_mono_level (beta a b) q_lo q_hi); try assumption.
    apply Qlt_le_weak, Hlt.
Qed.

Lemma credible_interval_ordered_witness :
  exists lower upper,
    ppf (beta 3 4) [25 # 1000; 975 # 1000]%Q = [Fin lower; Fin upper] /\
    Spec.credible_interval (beta 3 4) (25 # 1000, 975 # 1000)%Q
    = Ok (Fin lower, Fin upper) /\
    (0 <= lower)%Q /\ (lower <= upper)%Q /\ (upper <= 1)%Q.
Proof.
  apply (credible_interval_ordered 3 4 (25 # 1000) (975 # 1000));
    reflexivity.
Defined.


(** C1, as the notebook has it.  For counts in the exact range, in two or
    more categories, [keep_largest_test] returns a boolean: the marginals it
    builds for the largest and the second largest posterior count have the
    exact shapes, and it returns [True] exactly when the lower quantile of
    the first is strictly above the upper quantile of the second, and
    [False] otherwise. *)
Theorem keep_largest_test_decision (read_counts : list Z) :
  (2 <= length read_counts)%nat ->
  exact_range read_counts ->
  exists post max1 max2 rest l1 u1 l2 u2,
    posterior_of read_counts = Ok post /\
    kth_largest post 1 = Ok max1 /\
    kth_largest post 2 = Ok max2 /\
    Permutation post (max1 :: max2 :: rest) /\
    max2 <= max1 /\
    Forall (fun x => x <= max2) rest /\
    scipy_beta (Flt max1) (float_sub (py_sum post) (Flt max1))
    = Shapes (beta max1 (total post - max1)) /\
    scipy_beta (Flt max2) (float_sub (py_sum post) (Flt max2))
    = Shapes (beta max2 (total post - max2)) /\
    ppf (beta max1 (total post - max1)) quantiles = [Fin l1; Fin u1] /\
    ppf (beta max2 (total post - max2)) quantiles = [Fin l2; Fin u2] /\
    (keep_largest_test read_counts = Ok true <-> (u2 < l1)%Q) /\
    (keep_largest_test read_counts = Ok false <-> ~ (u2 < l1)%Q).
Proof.
  intros Hlen Hx.
  pose proof (posterior_of_exact read_counts Hx) as E.
  destruct (exact_range_posterior read_counts Hx) as [Hpos Hb].
  assert (Hlen' : (2 <= length (map (Z.add 1) read_counts))%nat)
    by (rewrite length_map; exact Hlen).
  destruct (kth_largest_top_two _ Hlen')
    as (max1 & max2 & rest & K1 & K2 & Hp & H21 & Hrest).
  destruct (posterior_shapes _ rest max1 max2 Hpos Hp)
    as (A1 & A2 & B1 & B2).
  pose proof (keep_largest_test_steps_exact read_counts _ max1 max2 E K1 K2 Hb)
    as Ht.
  pose proof (abs_rest_le_total_abs _ _ (kth_largest_in _ _ _ K1)) as R1.
  pose proof (abs_rest_le_total_abs _ _ (kth_largest_in _ _ _ K2)) as R2.
  assert (Q0 : (0 < 25 # 1000)%Q) by reflexivity.
  assert (Q1 : (25 # 1000 < 1)%Q) by reflexivity.
  assert (Q2 : (0 < 975 # 1000)%Q) by reflexivity.
  assert (Q3 : (975 # 1000 < 1)%Q) by reflexivity.
  pose proof (ppf1_interior _ _ _ A1 B1 Q0 Q1) as P1l.
  pose proof (ppf1_interior _ _ _ A1 B1 Q2 Q3) as P1u.
  pose proof (ppf1_interior _ _ _ A2 B2 Q0 Q1) as P2l.
  pose proof (ppf1_interior _ _ _ A2 B2 Q2 Q3) as P2u.
  do 8 eexists.
  split; [exact E|]. split; [exact K1|]. split; [exact K2|].
  split; [exact Hp|]. split; [exact H21|]. split; [exact Hrest|].
  split; [rewrite (py_sum_exact _ Hb), float_sub_exact by lia; reflexivity|].
  split; [rewrite (py_sum_exact _ Hb), float_sub_exact by lia; reflexivity|].
  split; [unfold ppf, quantiles; cbn [map]; rewrite P1l, P1u; reflexivity|].
  split; [unfold ppf, quantiles; cbn [map]; rewrite P2l, P2u; reflexivity|].
  rewrite Ht, P1l, P2u, !Ok_inj.
  split; [apply float_gt_true_iff | apply float_gt_false_iff].
Qed.

Lemma keep_largest_test_decision_witness :
  exists post max1 max2 rest l1 u1 l2 u2,
    posterior_of [2; 3] = Ok post /\
    kth_largest post 1 = Ok max1 /\
    kth_largest post 2 = Ok max2 /\
    Permutation post (max1 :: max2 :: rest) /\
    max2 <= max1 /\
    Forall (fun x => x <= max2) rest /\
    scipy_beta (Flt max1) (float_sub (py_sum post) (Flt max1))
    = Shapes (beta max1 (total post - max1)) /\
    scipy_beta (Flt max2) (float_sub (py_sum post) (Flt max2))
    = Shapes (beta max2 (total post - max2)) /\
    ppf (beta max1 (total post - max1)) quantiles = [Fin l1; Fin u1] /\
    ppf (beta max2 (total post - max2)) quantiles = [Fin l2; Fin u2] /\
    (keep_largest_test [2; 3] = Ok true <-> (u2 < l1)%Q) /\
    (keep_largest_test [2; 3] = Ok false <-> ~ (u2 < l1)%Q).
Proof.
  apply (keep_largest_test_decision [2; 3]).
  - simpl. lia.
  - split; [repeat constructor; lia | vm_compute; discriminate].
Defined.

(** C1 as stated fails beyond the exact range.  For
    [counts = [2^53 - 1, 0]] the posterior is [[2^53, 1]], whose marginals
    Beta(2^53, 1) and Beta(1, 2^53) are far apart; but the float sum of the
    posterior is 2^53, the first marginal is built with the second shape 0,
    its quantiles are NaN, and [keep_largest_test] returns [False].  For
    [counts = [10^400, 0]] there is no answer at all: the posterior step
    raises [OverflowError]. *)
Lemma decision_beyond_exact_range :
  posterior_of [2 ^ 53 - 1; 0] = Ok [2 ^ 53; 1] /\
  kth_largest [2 ^ 53; 1] 1 = Ok (2 ^ 53) /\
  kth_largest [2 ^ 53; 1] 2 = Ok 1 /\
  total [2 ^ 53; 1] - 2 ^ 53 = 1 /\
  total [2 ^ 53; 1] - 1 = 2 ^ 53 /\
  float_gt (ppf1 (beta (2 ^ 53) 1) (25 # 1000))
           (ppf1 (beta 1 (2 ^ 53)) (975 # 1000)) = true /\
  scipy_beta (Flt (2 ^ 53)) (float_sub (py_sum [2 ^ 53; 1]) (Flt (2 ^ 53)))
  = Shapes (beta (2 ^ 53) 0) /\
  keep_largest_test [2 ^ 53 - 1; 0] = Ok false /\
  keep_largest_test [10 ^ 400; 0] = Raise OverflowError.
Proof.
  assert (S1 : scipy_beta (Flt (2 ^ 53))
                 (float_sub (py_sum [2 ^ 53; 1]) (Flt (2 ^ 53)))
               = Shapes (beta (2 ^ 53) 0)) by (vm_compute; reflexivity).
  split; [reflexivity|]. split; [reflexivity|]. split; [reflexivity|].
  split; [reflexivity|]. split; [reflexivity|].
  split; [rewrite lone_leader_separated; reflexivity|].
  split; [exact S1|].
  split; [|vm_compute; reflexivity].
  rewrite (keep_largest_test_steps [2 ^ 53 - 1; 0] [2 ^ 53; 1] (2 ^ 53) 1
             eq_refl eq_refl eq_refl).
  rewrite S1. cbn [dist_ppf1].
  rewrite (ppf1_invalid (2 ^ 53) 0) by (right; lia).
  reflexivity.
Qed.



(** C7, as the notebook has it.  On a single category [keep_largest_test]
    fails, and never with [InvalidInputError].  For a count that has a
    float64, which is one under [2^1024 - 2^970] in magnitude, the failure
    is Python's [IndexError]: the largest posterior count is found, and
    [kth_largest (posterior_counts, 2)] raises, a one-element array having no
    index -2.  For a larger count it is [OverflowError], raised by
    [prior_counts + read_counts]. *)
Theorem single_category_fails (c : Z) :
  (Z.abs c < 2 ^ 1024 - 2 ^ 970 ->
   exists max1,
     posterior_of [c] = Ok [max1] /\
     kth_largest [max1] 1 = Ok max1 /\
     kth_largest [max1] 2 = Raise IndexError /\
     keep_largest_test [c] = Raise IndexError) /\
  (2 ^ 1024 - 2 ^ 970 <= Z.abs c ->
   posterior_of [c] = Raise OverflowError /\
   keep_largest_test [c] = Raise OverflowError) /\
  (exists e, keep_largest_test [c] = Raise e /\ e <> InvalidInputError).
Proof.
  pose proof (posterior_of_cases [c]) as E. cbn [forallb map andb] in E.
  destruct (Z.ltb_spec (Z.abs c) (2 ^ 1024 - 2 ^ 970)) as [H | H];
    cbn [andb] in E.
  - pose proof (keep_largest_test_short [c] _ E ltac:(simpl; lia)) as F.
    split; [|split].
    + intros _. exists (fl (1 + fl c)).
      split; [exact E|]. split; [reflexivity|]. split; [reflexivity | exact F].
    + intros H'. lia.
    + exists IndexError. split; [exact F | discriminate].
  - pose proof (keep_largest_test_no_posterior [c] _ E) as F.
    split; [|split].
    + intros H'. lia.
    + intros _. split; [exact E | exact F].
    + exists OverflowError. split; [exact F | discriminate].
Qed.

Lemma single_category_fails_witness :
  exists max1,
    posterior_of [5] = Ok [max1] /\
    kth_largest [max1] 1 = Ok max1 /\
    kth_largest [max1] 2 = Raise IndexError /\
    keep_largest_test [5] = Raise IndexError.
Proof.
  apply (proj1 (single_category_fails 5)). vm_compute. reflexivity.
Defined.

(** C7 as stated fails: on [counts = [5]] the error is not
    [InvalidInputError]. *)
Lemma single_category_error_kind :
  keep_largest_test [5] = Raise IndexError /\
  keep_largest_test [5] <> Raise InvalidInputError.
Proof. split; [reflexivity | discriminate]. Qed.






(** ** The scenarios *)

(** The side conditions of [quantiles_apart] at explicit numbers are closed
    comparisons; the two CDF values are evaluated on the machine-word
    table. *)


(** C5. [counts = [200, 300, 400]] has the posterior [[201, 301, 401]], and
    [keep_largest_test] returns [True]: Beta(401, 502) is still under 0.025
    at 2/5, and Beta(301, 602) is over 0.975 at 3/8 already. *)
Theorem scenario_200_300_400 :
  posterior_of [200; 300; 400] = Ok [201; 301; 401] /\
  keep_largest_test [200; 300; 400] = Ok true.
Proof.
  split; [reflexivity|].
  rewrite (keep_largest_test_steps_exact [200; 300; 400] [201; 301; 401] 401 301
             eq_refl eq_refl eq_refl)
    by (vm_compute; discriminate).
  apply (f_equal Ok).
  change (total [201; 301; 401] - 401) with 502.
  change (total [201; 301; 401] - 301) with 602.
  apply (quantiles_apart 401 502 301 602 _ _ (2 # 5) (3 # 8));
    [ reflexivity | reflexivity | reflexivity | reflexivity
    | reflexivity | reflexivity | reflexivity | reflexivity
    | q_as_z; lia | vm_compute; discriminate | reflexivity
    | rewrite beta_cdf_big; vm_compute; reflexivity
    | rewrite beta_cdf_big; vm_compute; discriminate ].
Qed.

(** C6, as the notebook has it.  [keep_largest_test] takes the counts and
    nothing else; its levels are the fixed pair (0.025, 0.975), at which, for
    counts in the exact range, it is the specification's rule.  For
    [counts = [2, 3]] the posterior is [[3, 4]] and it returns [False]; the
    same comparison at the levels (0.005, 0.995) is [False] as well. *)
Theorem fixed_levels_and_scenario_2_3 :
  (forall read_counts,
      (2 <= length read_counts)%nat ->
      exact_range read_counts ->
      keep_largest_test read_counts
      = Spec.keep_top_category read_counts None (25 # 1000, 975 # 1000)%Q) /\
  posterior_of [2; 3] = Ok [3; 4] /\
  keep_largest_test [2; 3] = Ok false /\
  float_gt (ppf1 (beta 4 3) (5 # 1000)) (ppf1 (beta 3 4) (995 # 1000)) = false /\
  Spec.keep_top_category [2; 3] None (5 # 1000, 995 # 1000)%Q = Ok false.
Proof.
  split; [exact keep_largest_test_is_rule_at_fixed_levels|].
  repeat split; vm_compute; reflexivity.
Qed.

Lemma fixed_levels_and_scenario_2_3_witness :
  keep_largest_test [2; 3]
  = Spec.keep_top_category [2; 3] None (25 # 1000, 975 # 1000)%Q.
Proof.
  apply (proj1 fixed_levels_and_scenario_2_3 [2; 3]).
  - simpl. lia.
  - split; [repeat constructor; lia | vm_compute; discriminate].
Defined.

(** C6 as stated fails: the levels cannot be chosen.  On [counts = [0, 5]]
    the rule at the levels (0.005, 0.995) says [False], and
    [keep_largest_test] returns [True], the answer at (0.025, 0.975). *)
Lemma levels_are_not_configurable :
  keep_largest_test [0; 5] = Ok true /\
  Spec.keep_top_category [0; 5] None (25 # 1000, 975 # 1000)%Q = Ok true /\
  Spec.keep_top_category [0; 5] None (5 # 1000, 995 # 1000)%Q = Ok false.
Proof. repeat split; vm_compute; reflexivity. Qed.

(** * More about the notebook's functions *)

(** ** [kth_largest] *)

(** The index [-k] is in range exactly for [-len(a) < k <= len(a)]. *)
Theorem kth_largest_index_error (a : list Z) (k : Z) :
  (kth_largest a k = Raise IndexError <->
   k <= - Z.of_nat (length a) \/ Z.of_nat (length a) < k) /\
  (- Z.of_nat (length a) < k <= Z.of_nat (length a) ->
   exists v, kth_largest a k = Ok v /\ In v a).
Proof.
  unfold kth_largest, py_getitem. rewrite np_sort_length.
  set (n := Z.of_nat (length a)).
  destruct (Z.ltb_spec (- k) 0) as [Hneg | Hpos].
  - destruct (Z.ltb_spec (- k + n) 0) as [H1 | H1]; cbn [orb].
    + split; [split; [lia | reflexivity] | lia].
    + destruct (Z.leb_spec n (- k + n)) as [H2 | H2]; [lia|].
      split; [split; [discriminate | lia]|].
      intros _. eexists. split; [reflexivity|].
      apply (Permutation_in _ (np_sort_perm a)), nth_In.
      rewrite np_sort_length. lia.
  - destruct (Z.ltb_spec (- k) 0) as [H1 | H1]; [lia|]. cbn [orb].
    destruct (Z.leb_spec n (- k)) as [H2 | H2].
    + split; [split; [lia | reflexivity] | lia].
    + split; [split; [discriminate | lia]|].
      intros _. eexists. split; [reflexivity|].
      apply (Permutation_in _ (np_sort_perm a)), nth_In.
      rewrite np_sort_length. lia.
Qed.

Lemma kth_largest_index_error_witness :
  exists v, kth_largest [31; 128; 2] 2 = Ok v /\ In v [31; 128; 2].
Proof.
  apply (proj2 (kth_largest_index_error [31; 128; 2] 2)). simpl. lia.
Defined.

Lemma filter_length_perm (f : Z -> bool) (l l' : list Z) :
  Permutation l l' -> length (filter f l) = length (filter f l').
Proof.
  induction 1; simpl.
  - reflexivity.
  - destruct (f x); simpl; congruence.
  - destruct (f x), (f y); reflexivity.
  - congruence.
Qed.

Lemma filter_all (f : Z -> bool) (l : list Z) :
  Forall (fun x => f x = true) l -> filter f l = l.
Proof. induction 1; simpl; [reflexivity|]. rewrite H, IHForall. reflexivity. Qed.

(** In a sorted list, what precedes an entry is at most it and what follows
    is at least it. *)
Lemma sorted_around : forall s1 v s2,
  StronglySorted Z.le (s1 ++ v :: s2) ->
  Forall (fun x => x <= v) s1 /\ Forall (fun x => v <= x) s2.
Proof.
  induction s1 as [|x s1 IH]; intros v s2 H.
  - simpl in H. inversion H; subst. split; [constructor | assumption].
  - simpl in H. inversion H as [|? ? Hs Hf]; subst.
    destruct (IH _ _ Hs) as [H1 H2]. split; [|exact H2].
    constructor; [|exact H1].
    rewrite Forall_forall in Hf. apply Hf, in_elt.
Qed.

(** Splitting a list at an index. *)
Lemma split_at (s : list Z) (j : nat) :
  (j < length s)%nat ->
  s = firstn j s ++ nth j s 0 :: skipn (S j) s /\
  length (firstn j s) = j /\ length (skipn (S j) s) = (length s - S j)%nat.
Proof.
  intros H. split; [|split].
  - symmetry. apply firstn_skipn_middle, nth_error_nth', H.
  - rewrite length_firstn. lia.
  - apply length_skipn.
Qed.

(** What [kth_largest] means for [1 <= k <= len(a)]: the value returned is an
    entry of [a], at least [k] entries are no smaller, and at least
    [len(a) - k + 1] entries are no larger. *)
Theorem kth_largest_order_statistic (a : list Z) (k : nat) :
  (1 <= k <= length a)%nat ->
  exists v,
    kth_largest a (Z.of_nat k) = Ok v /\
    In v a /\
    (k <= length (filter (fun x => Z.leb v x) a))%nat /\
    (length a - k + 1 <= length (filter (fun x => Z.leb x v) a))%nat.
Proof.
  intros Hk.
  set (s := np_sort a). set (j := (length s - k)%nat).
  assert (Hls : length s = length a) by apply np_sort_length.
  assert (Hj : (j < length s)%nat) by (unfold j; lia).
  exists (nth j s 0).
  destruct (split_at s j Hj) as (E & L1 & L2).
  pose proof (np_sort_sorted a) as Hs. fold s in Hs. rewrite E in Hs.
  destruct (sorted_around _ _ _ Hs) as [Hlow Hhigh].
  set (v := nth j s 0) in *.
  split; [|split; [|split]].
  - unfold kth_largest. fold s. apply py_getitem_from_end. lia.
  - apply (Permutation_in _ (np_sort_perm a)). fold s. apply nth_In, Hj.
  - rewrite <- (filter_length_perm _ _ _ (np_sort_perm a)). fold s.
    rewrite E, filter_app, length_app.
    rewrite (filter_all (fun x => Z.leb v x) (v :: skipn (S j) s)).
    + cbn [length]. rewrite L2. unfold j. lia.
    + constructor; [apply Z.leb_refl|].
      eapply Forall_impl; [|exact Hhigh]. intros x Hx. apply Z.leb_le, Hx.
  - rewrite <- (filter_length_perm _ _ _ (np_sort_perm a)). fold s.
    rewrite E, filter_app, length_app.
    rewrite (filter_all (fun x => Z.leb x v) (firstn j s)).
    + rewrite L1. cbn [filter]. rewrite Z.leb_refl. cbn [length]. unfold j. lia.
    + eapply Forall_impl; [|exact Hlow]. intros x Hx. apply Z.leb_le, Hx.
Qed.

Lemma kth_largest_order_statistic_witness :
  exists v,
    kth_largest [31; 128; 2] (Z.of_nat 2) = Ok v /\
    In v [31; 128; 2] /\
    (2 <= length (filter (fun x => Z.leb v x) [31; 128; 2]%Z))%nat /\
    (length [31; 128; 2]%Z - 2 + 1
     <= length (filter (fun x => Z.leb x v) [31; 128; 2]%Z))%nat.
Proof.
  apply (kth_largest_order_statistic [31; 128; 2] 2). simpl. lia.
Defined.

(** The "zeroth largest" is no error: [-0] is index 0, so on a non-empty
    array [kth_largest (a, 0)] is the smallest entry; and a negative [k]
    counts from the small end, [kth_largest (a, -j)] being the entry [j]
    places above the smallest. *)
Theorem kth_largest_nonpositive_k (a : list Z) (j : nat) :
  (j < length a)%nat ->
  exists v,
    kth_largest a (- Z.of_nat j) = Ok v /\
    In v a /\
    (j + 1 <= length (filter (fun x => Z.leb x v) a))%nat /\
    (length a - j <= length (filter (fun x => Z.leb v x) a))%nat /\
    (j = 0%nat -> Forall (fun x => v <= x) a).
Proof.
  intros Hj0.
  set (s := np_sort a).
  assert (Hls : length s = length a) by apply np_sort_length.
  assert (Hj : (j < length s)%nat) by lia.
  exists (nth j s 0).
  destruct (split_at s j Hj) as (E & L1 & L2).
  pose proof (np_sort_sorted a) as Hs. fold s in Hs. rewrite E in Hs.
  destruct (sorted_around _ _ _ Hs) as [Hlow Hhigh].
  set (v := nth j s 0) in *.
  assert (Hup : length (filter (fun x => Z.leb v x) a) = length (filter (fun x => Z.leb v x) s))
    by (symmetry; apply filter_length_perm, np_sort_perm).
  split; [|split; [|split; [|split]]].
  - unfold kth_largest, py_getitem. fold s. rewrite Z.opp_involutive.
    assert (Hn : (Z.of_nat j <? 0) = false) by (apply Z.ltb_ge; lia).
    assert (Hm : (Z.of_nat (length s) <=? Z.of_nat j) = false)
      by (apply Z.leb_gt; lia).
    cbv zeta. rewrite Hn. cbv iota. rewrite Hn, Hm. cbn [orb].
    rewrite Nat2Z.id. reflexivity.
  - apply (Permutation_in _ (np_sort_perm a)). fold s. apply nth_In, Hj.
  - rewrite <- (filter_length_perm _ _ _ (np_sort_perm a)). fold s.
    rewrite E, filter_app, length_app.
    rewrite (filter_all (fun x => Z.leb x v) (firstn j s)).
    + rewrite L1. cbn [filter]. rewrite Z.leb_refl. cbn [length]. lia.
    + eapply Forall_impl; [|exact Hlow]. intros x Hx. apply Z.leb_le, Hx.
  - rewrite Hup, E, filter_app, length_app.
    rewrite (filter_all (fun x => Z.leb v x) (v :: skipn (S j) s)).
    + cbn [length]. rewrite L2. lia.
    + constructor; [apply Z.leb_refl|].
      eapply Forall_impl; [|exact Hhigh]. intros x Hx. apply Z.leb_le, Hx.
  - intros ->. apply (Permutation_Forall (np_sort_perm a)). fold s. rewrite E.
    cbn [firstn app]. constructor; [lia | exact Hhigh].
Qed.

Lemma kth_largest_nonpositive_k_witness :
  exists v,
    kth_largest [31; 128; 2] (- Z.of_nat 0) = Ok v /\
    In v [31; 128; 2] /\
    (0 + 1 <= length (filter (fun x => Z.leb x v) [31; 128; 2]%Z))%nat /\
    (length [31; 128; 2]%Z - 0 <= length (filter (fun x => Z.leb v x) [31; 128; 2]%Z))%nat /\
    (0%nat = 0%nat -> Forall (fun x => v <= x) [31; 128; 2]).
Proof.
  apply (kth_largest_nonpositive_k [31; 128; 2] 0). simpl. lia.
Defined.

(** Sorted lists with the same entries are the same list. *)
Lemma sorted_perm_eq : forall l l',
  StronglySorted Z.le l -> StronglySorted Z.le l' -> Permutation l l' -> l = l'.
Proof.
  induction l as [|x l IH]; intros l' Hs Hs' Hp.
  - apply Permutation_nil in Hp. congruence.
  - destruct l' as [|y l'].
    + apply Permutation_sym, Permutation_nil in Hp. discriminate.
    + inversion Hs as [|? ? Hl Hx]; subst. inversion Hs' as [|? ? Hl' Hy]; subst.
      assert (x = y).
      { assert (In y (x :: l)) as Iy
          by (apply (Permutation_in _ (Permutation_sym Hp)); left; reflexivity).
        assert (In x (y :: l')) as Ix
          by (apply (Permutation_in _ Hp); left; reflexivity).
        rewrite Forall_forall in Hx, Hy.
        destruct Iy as [-> | Iy]; [reflexivity|].
        destruct Ix as [-> | Ix]; [reflexivity|].
        pose proof (Hx _ Iy). pose proof (Hy _ Ix). lia. }
      subst y. f_equal. apply IH; try assumption.
      apply Permutation_cons_inv in Hp. exact Hp.
Qed.

Lemma np_sort_perm_eq (a b : list Z) : Permutation a b -> np_sort a = np_sort b.
Proof.
  intros H. apply sorted_perm_eq; try apply np_sort_sorted.
  rewrite (np_sort_perm a), (np_sort_perm b). exact H.
Qed.

Lemma kth_perm (a b : list Z) (k : Z) :
  Permutation a b -> kth_largest a k = kth_largest b k.
Proof.
  intros H. unfold kth_largest. rewrite (np_sort_perm_eq a b H). reflexivity.
Qed.


(** [kth_largest] does not look at the order of the array. *)
Theorem kth_largest_ignores_order (a b : list Z) (k : Z) :
  Permutation a b -> kth_largest a k = kth_largest b k.
Proof.
  intros H. unfold kth_largest.
  replace (np_sort b) with (np_sort a); [reflexivity|].
  apply sorted_perm_eq; try apply np_sort_sorted.
  rewrite (np_sort_perm a), (np_sort_perm b). exact H.
Qed.

Lemma kth_largest_ignores_order_witness :
  kth_largest [127; 1; 30] 2 = kth_largest [1; 30; 127] 2.
Proof.
  apply kth_largest_ignores_order.
  apply Permutation_cons_app with (l1 := [1; 30]) (l2 := []). reflexivity.
Defined.


(** ** [keep_largest_test] *)

Lemma not_all_convertible (read_counts : list Z) :
  forallb (fun c => Z.abs c <? 2 ^ 1024 - 2 ^ 970) read_counts = false ->
  Exists (fun c => 2 ^ 1024 - 2 ^ 970 <= Z.abs c) read_counts.
Proof.
  induction read_counts as [|c rc IH]; cbn [forallb]; [discriminate|].
  destruct (Z.ltb_spec (Z.abs c) (2 ^ 1024 - 2 ^ 970)) as [H | H]; cbn [andb].
  - intros E. right. apply IH, E.
  - intros _. left. exact H.
Qed.

Lemma convertible_excludes (read_counts : list Z) :
  Forall (fun c => Z.abs c < 2 ^ 1024 - 2 ^ 970) read_counts ->
  ~ Exists (fun c => 2 ^ 1024 - 2 ^ 970 <= Z.abs c) read_counts.
Proof.
  intros F X. rewrite Forall_forall in F. rewrite Exists_exists in X.
  destruct X as (c & Hc & Hbig). pose proof (F c Hc). lia.
Qed.

(** [keep_largest_test] fails in two ways only.  It raises
    [OverflowError] exactly when some count has no float64, that is, is
    [2^1024 - 2^970] or more in magnitude; and [IndexError] exactly when
    every count has one and there are fewer than two of them: the empty
    input and a single count.  On two or more counts in the exact range it
    returns a boolean. *)
Theorem keep_largest_test_failures (read_counts : list Z) :
  (keep_largest_test read_counts = Raise OverflowError <->
   Exists (fun c => 2 ^ 1024 - 2 ^ 970 <= Z.abs c) read_counts) /\
  (keep_largest_test read_counts = Raise IndexError <->
   Forall (fun c => Z.abs c < 2 ^ 1024 - 2 ^ 970) read_counts /\
   (length read_counts < 2)%nat) /\
  (forall e, keep_largest_test read_counts = Raise e ->
             e = OverflowError \/ e = IndexError) /\
  (exact_range read_counts -> (2 <= length read_counts)%nat ->
   exists b, keep_largest_test read_counts = Ok b).
Proof.
  pose proof (posterior_of_cases read_counts) as E.
  destruct (forallb _ read_counts) eqn:Ec.
  - pose proof (proj1 (forallb_convertible _) Ec) as Hc.
    pose proof (convertible_excludes _ Hc) as Hn.
    pose proof (posterior_of_length _ _ E) as Hlen.
    destruct (Nat.lt_ge_cases (length read_counts) 2) as [Hs | Hl].
    + rewrite (keep_largest_test_short _ _ E) by lia.
      split; [split; [discriminate | intros X; contradiction]|].
      split; [split; [intros _; split; assumption | reflexivity]|].
      split; [intros e He; right; congruence | lia].
    + destruct (keep_largest_test_long _ _ E) as [b Hb]; [lia|].
      rewrite Hb.
      split; [split; [discriminate | intros X; contradiction]|].
      split; [split; [discriminate | lia]|].
      split; [discriminate | intros _ _; exists b; reflexivity].
  - pose proof (not_all_convertible _ Ec) as X.
    rewrite (keep_largest_test_no_posterior _ _ E).
    split; [split; [intros _; exact X | reflexivity]|].
    split; [split; [discriminate|]|].
    + intros [Hc _]. exfalso. exact (convertible_excludes _ Hc X).
    + split; [intros e He; left; congruence|].
      intros Hx _. rewrite (posterior_of_exact _ Hx) in E. discriminate E.
Qed.

Lemma keep_largest_test_failures_witness :
  exists b, keep_largest_test [2; 3] = Ok b.
Proof.
  apply (proj2 (proj2 (proj2 (keep_largest_test_failures [2; 3])))).
  - split; [repeat constructor; lia | vm_compute; discriminate].
  - simpl. lia.
Defined.

Lemma exact_range_perm (rc rc' : list Z) :
  Permutation rc rc' -> exact_range rc -> exact_range rc'.
Proof.
  intros Hp [Hv Ht]. split.
  - apply (Permutation_Forall Hp), Hv.
  - rewrite <- (total_perm _ _ (Permutation_map (Z.add 1) Hp)). exact Ht.
Qed.

(** [keep_largest_test] in the exact range: the two calls of [kth_largest]
    on the posterior counts, then one comparison of quantiles. *)
Lemma keep_largest_test_unfold_exact (read_counts : list Z) :
  exact_range read_counts ->
  keep_largest_test read_counts
  = (max1 <- kth_largest (map (Z.add 1) read_counts) 1 ;;
     max2 <- kth_largest (map (Z.add 1) read_counts) 2 ;;
     Ok (float_gt
           (ppf1 (beta max1 (total (map (Z.add 1) read_counts) - max1)) (25 # 1000))
           (ppf1 (beta max2 (total (map (Z.add 1) read_counts) - max2)) (975 # 1000)))).
Proof.
  intros Hx.
  pose proof (posterior_of_exact read_counts Hx) as E.
  destruct (exact_range_posterior read_counts Hx) as [_ Hb].
  destruct (kth_largest _ 1) as [max1|e] eqn:K1.
  - destruct (kth_largest _ 2) as [max2|e] eqn:K2.
    + cbn [bind]. apply keep_largest_test_steps_exact; assumption.
    + unfold keep_largest_test. unfold posterior_of in E. rewrite E. cbn [bind].
      rewrite K1. cbn [bind]. rewrite K2. reflexivity.
  - unfold keep_largest_test. unfold posterior_of in E. rewrite E. cbn [bind].
    rewrite K1. reflexivity.
Qed.

(** In the exact range the order in which the categories are listed does
    not matter. *)
Theorem keep_largest_test_perm (rc rc' : list Z) :
  exact_range rc -> Permutation rc rc' ->
  keep_largest_test rc = keep_largest_test rc'.
Proof.
  intros Hx H.
  assert (Hp : Permutation (map (Z.add 1) rc) (map (Z.add 1) rc'))
    by (apply Permutation_map, H).
  rewrite !keep_largest_test_unfold_exact
    by (assumption || exact (exact_range_perm _ _ H Hx)).
  rewrite (kth_perm _ _ 1 Hp), (kth_perm _ _ 2 Hp).
  rewrite (total_perm _ _ Hp). reflexivity.
Qed.

Lemma keep_largest_test_perm_witness :
  keep_largest_test [127; 1; 30] = keep_largest_test [1; 30; 127].
Proof.
  apply keep_largest_test_perm.
  - split; [repeat constructor; lia | vm_compute; discriminate].
  - apply Permutation_cons_app with (l1 := [1; 30]) (l2 := []). reflexivity.
Defined.

(** ** [plot_posterior] *)

Lemma total_pos (l : list Z) :
  Forall (fun x => 0 < x) l -> l <> [] -> 0 < total l.
Proof.
  intros H Hne. destruct H as [|x l Hx Hl]; [congruence|].
  change (total (x :: l)) with (x + total l).
  pose proof (total_pos_rest _ Hl). lia.
Qed.

(** Among two or more positive numbers, each is below the total. *)
Lemma below_total (post : list Z) (count : Z) :
  Forall (fun x => 0 < x) post -> (2 <= length post)%nat -> In count post ->
  0 < total post - count.
Proof.
  intros Hpos Hlen Hin.
  destruct (in_split _ _ Hin) as (l1 & l2 & ->).
  rewrite length_app in Hlen. cbn [length] in Hlen.
  assert (Hrest : Forall (fun x => 0 < x) (l1 ++ l2)).
  { apply Forall_app in Hpos as [H1 H2]. inversion H2; subst.
    apply Forall_app. split; assumption. }
  assert (Hne : l1 ++ l2 <> []).
  { intros E. apply (f_equal (@length Z)) in E. rewrite length_app in E.
    simpl in E. lia. }
  pose proof (total_pos _ Hrest Hne) as P.
  rewrite total_app in *. change (total (count :: l2)) with (count + total l2).
  lia.
Qed.

(** In the exact range the marginals of [plot_posterior] have the exact
    shapes. *)
Lemma plot_posterior_exact (read_counts : list Z) :
  exact_range read_counts ->
  plot_posterior read_counts
  = Ok (map Shapes
          (map (fun count => beta count (total (map (Z.add 1) read_counts) - count))
               (map (Z.add 1) read_counts))).
Proof.
  intros Hx.
  pose proof (posterior_of_exact read_counts Hx) as E.
  destruct (exact_range_posterior read_counts Hx) as [_ Hb].
  unfold posterior_of in E. unfold plot_posterior. rewrite E. cbn [bind].
  apply (f_equal Ok). rewrite (np_sum_exact _ _ Hb).
  rewrite (map_map (fun count => beta count (total (map (Z.add 1) read_counts) - count))
                   Shapes).
  apply map_ext_in. intros count Hin.
  pose proof (abs_rest_le_total_abs _ _ Hin).
  rewrite float_sub_exact by lia. reflexivity.
Qed.

(** For counts in the exact range [plot_posterior] does not fail and builds
    one marginal with finite shapes per category.  Every marginal has
    positive shapes, so is a Beta distribution, except when there is a single
    category: its marginal has the second shape 0. *)
Theorem plot_posterior_shapes (read_counts : list Z) :
  exact_range read_counts ->
  exists dists,
    plot_posterior read_counts = Ok (map Shapes dists) /\
    length dists = length read_counts /\
    (Forall (fun d => 0 < shape_a d /\ 0 < shape_b d) dists <->
     length read_counts <> 1%nat) /\
    (length read_counts = 1%nat ->
     Forall (fun d => 0 < shape_a d /\ shape_b d = 0) dists).
Proof.
  intros Hx.
  pose proof (plot_posterior_exact read_counts Hx) as E.
  destruct (exact_range_posterior read_counts Hx) as [Hpos _].
  destruct Hx as [Hv _].
  set (post := map (Z.add 1) read_counts) in *.
  assert (Hlen : length post = length read_counts) by apply length_map.
  eexists. split; [exact E|]. split; [rewrite length_map; exact Hlen|].
  split; [split|].
  - intros Hall H1.
    destruct read_counts as [|c [|]]; try discriminate H1.
    cbn in Hall. inversion Hall as [|? ? [_ Hb] _]; subst.
    cbn in Hb. lia.
  - intros Hne. apply Forall_map, Forall_forall. intros count Hin.
    cbn [shape_a shape_b]. rewrite Forall_forall in Hpos.
    split; [apply Hpos, Hin|].
    destruct (Nat.lt_ge_cases (length post) 2) as [Hs | Hl].
    + destruct post as [|x [|]]; [destruct Hin | simpl in Hlen; lia | simpl in Hs; lia].
    + apply below_total; [apply Forall_forall, Hpos | exact Hl | exact Hin].
  - intros H1. destruct read_counts as [|c [|]]; try discriminate H1.
    unfold post. cbn [map]. constructor; [|constructor].
    cbn [shape_a shape_b].
    change (total [1 + c]) with (1 + c + 0).
    inversion Hv; subst. lia.
Qed.

Lemma plot_posterior_shapes_witness :
  exists dists,
    plot_posterior [2; 3] = Ok (map Shapes dists) /\
    length dists = length [2; 3] /\
    (Forall (fun d => 0 < shape_a d /\ 0 < shape_b d) dists <->
     length [2; 3] <> 1%nat) /\
    (length [2; 3] = 1%nat ->
     Forall (fun d => 0 < shape_a d /\ shape_b d = 0) dists).
Proof.
  apply (plot_posterior_shapes [2; 3]).
  split; [repeat constructor; lia | vm_compute; discriminate].
Defined.

(** In the exact range the two distributions [keep_largest_test] builds
    from [sum(posterior_counts)] are two of the curves [plot_posterior]
    draws, from [posterior_counts.sum()], for the same counts. *)
Theorem keep_largest_test_compares_plotted (read_counts : list Z) :
  (2 <= length read_counts)%nat ->
  exact_range read_counts ->
  exists post dists max1 max2,
    posterior_of read_counts = Ok post /\
    plot_posterior read_counts = Ok dists /\
    kth_largest post 1 = Ok max1 /\
    kth_largest post 2 = Ok max2 /\
    In (scipy_beta (Flt max1) (float_sub (py_sum post) (Flt max1))) dists /\
    In (scipy_beta (Flt max2) (float_sub (py_sum post) (Flt max2))) dists /\
    keep_largest_test read_counts
    = Ok (float_gt
            (dist_ppf1 (scipy_beta (Flt max1) (float_sub (py_sum post) (Flt max1)))
                       (25 # 1000))
            (dist_ppf1 (scipy_beta (Flt max2) (float_sub (py_sum post) (Flt max2)))
                       (975 # 1000))).
Proof.
  intros H2 Hx.
  pose proof (posterior_of_exact read_counts Hx) as E.
  pose proof (plot_posterior_exact read_counts Hx) as Ep.
  destruct (exact_range_posterior read_counts Hx) as [_ Hb].
  set (post := map (Z.add 1) read_counts) in *.
  assert (Hlen : (2 <= length post)%nat) by (unfold post; rewrite length_map; exact H2).
  destruct (kth_largest_top_two post Hlen)
    as (max1 & max2 & rest & K1 & K2 & Hp & _).
  pose proof (kth_largest_in _ _ _ K1) as I1.
  pose proof (kth_largest_in _ _ _ K2) as I2.
  pose proof (abs_rest_le_total_abs _ _ I1) as R1.
  pose proof (abs_rest_le_total_abs _ _ I2) as R2.
  exists post. eexists. exists max1, max2.
  split; [exact E|]. split; [exact Ep|].
  split; [exact K1|]. split; [exact K2|].
  rewrite (map_map (fun count => beta count (total post - count)) Shapes).
  split; [|split].
  - rewrite (py_sum_exact _ Hb), float_sub_exact by lia.
    apply (in_map (fun count => Shapes (beta count (total post - count)))), I1.
  - rewrite (py_sum_exact _ Hb), float_sub_exact by lia.
    apply (in_map (fun count => Shapes (beta count (total post - count)))), I2.
  - apply keep_largest_test_steps; assumption.
Qed.

Lemma keep_largest_test_compares_plotted_witness :
  exists post dists max1 max2,
    posterior_of [2; 3] = Ok post /\
    plot_posterior [2; 3] = Ok dists /\
    kth_largest post 1 = Ok max1 /\
    kth_largest post 2 = Ok max2 /\
    In (scipy_beta (Flt max1) (float_sub (py_sum post) (Flt max1))) dists /\
    In (scipy_beta (Flt max2) (float_sub (py_sum post) (Flt max2))) dists /\
    keep_largest_test [2; 3]
    = Ok (float_gt
            (dist_ppf1 (scipy_beta (Flt max1) (float_sub (py_sum post) (Flt max1)))
                       (25 # 1000))
            (dist_ppf1 (scipy_beta (Flt max2) (float_sub (py_sum post) (Flt max2)))
                       (975 # 1000))).
Proof.
  apply (keep_largest_test_compares_plotted [2; 3]).
  - simpl. lia.
  - split; [repeat constructor; lia | vm_compute; discriminate].
Defined.

(** ** Two categories in the exact range *)



(** With two categories and [c1 + c2 + 3 <= 2^53], a further read of the
    leading sequence, or one read less of the other, never turns [True]
    into [False]. *)
Theorem two_categories_monotone (c1 c2 : Z) :
  0 <= c2 -> c2 <= c1 -> c1 + c2 + 3 <= 2 ^ 53 ->
  keep_largest_test [c1; c2] = Ok true ->
  keep_largest_test [c1 + 1; c2] = Ok true /\
  (0 < c2 -> keep_largest_test [c1; c2 - 1] = Ok true).
Proof.
  intros H2 H12 Hb.
  rewrite !two_categories_sign_test_eq by lia.
  replace (Z.max c1 c2) with c1 by lia.
  replace (Z.max (c1 + 1) c2) with (c1 + 1) by lia.
  set (n := Z.to_nat (c1 + c2 + 1)). set (a := Z.to_nat (c1 + 1)).
  assert (Hn : c1 + c2 + 1 = Z.of_nat n) by (unfold n; lia).
  assert (R : 0 <= 1 <= 2) by lia.
  intros T. apply (proj1 (Ok_inj _ _)) in T. apply Z.ltb_lt in T. rewrite Hn in T.
  split.
  - apply (f_equal Ok). apply Z.ltb_lt.
    replace (Z.to_nat (c1 + 1 + c2 + 1)) with (S n) by (unfold n; lia).
    replace (Z.to_nat (c1 + 1 + 1)) with (S a) by (unfold a; lia).
    replace (c1 + 1 + c2 + 1) with (Z.succ (Z.of_nat n)) by lia.
    rewrite binom_tail_S_S, Z.pow_succ_r by lia.
    pose proof (binom_tail_antitone 1 2 R n a). lia.
  - intros Hpos. rewrite two_categories_sign_test_eq by lia.
    apply (f_equal Ok). apply Z.ltb_lt.
    replace (Z.max c1 (c2 - 1)) with c1 by lia. fold a.
    destruct n as [|n']; [lia|].
    replace (Z.to_nat (c1 + (c2 - 1) + 1)) with n' by lia.
    replace (c1 + (c2 - 1) + 1) with (Z.of_nat n') by lia.
    rewrite Nat2Z.inj_succ, Z.pow_succ_r in T by lia.
    assert (Ha : a = S (Z.to_nat c1)) by (unfold a; lia).
    rewrite Ha in *. rewrite binom_tail_S_S in T.
    pose proof (binom_tail_antitone 1 2 R n' (Z.to_nat c1)). lia.
Qed.

Lemma two_categories_monotone_witness :
  keep_largest_test [9 + 1; 1] = Ok true /\
  (0 < 1 -> keep_largest_test [9; 1 - 1] = Ok true).
Proof.
  apply two_categories_monotone; [lia | lia | vm_compute; discriminate |].
  rewrite two_categories_sign_test_eq by (lia || (vm_compute; discriminate)).
  reflexivity.
Defined.

(** One sequence against a category without reads, up to [2^53 - 2] reads:
    kept from five reads on. *)
Theorem lone_sequence_threshold (c : Z) :
  0 <= c -> c + 2 <= 2 ^ 53 -> keep_largest_test [c; 0] = Ok (5 <=? c).
Proof.
  intros Hc Hb. rewrite two_categories_sign_test_eq by lia. apply (f_equal Ok).
  replace (Z.max c 0) with c by lia. replace (c + 0 + 1) with (c + 1) by lia.
  rewrite binom_tail_n_n, Z.pow_1_l by lia.
  destruct (Z.leb_spec 5 c) as [H5 | H5]; [apply Z.ltb_lt | apply Z.ltb_ge].
  - assert (2 ^ 6 <= 2 ^ (c + 1)) by (apply Z.pow_le_mono_r; lia).
    change (2 ^ 6) with 64 in *. lia.
  - assert (2 ^ (c + 1) <= 2 ^ 5) by (apply Z.pow_le_mono_r; lia).
    change (2 ^ 5) with 32 in *. lia.
Qed.

Lemma lone_sequence_threshold_witness : keep_largest_test [4; 0] = Ok (5 <=? 4).
Proof.
  apply lone_sequence_threshold; [lia | vm_compute; discriminate].
Defined.
